(** * Dependency resolver: graph engine and its analyses

    A shallow embedding of [Imposible2.cpp]: the [Package] value type, the
    [DependencyGraph] with its adjacency map and in-degree counters, and the
    analyses run over it (cycle detection, Kahn's topological sort, version
    conflict detection, visualisation and impact analysis).

    Modelling choices.
    - [std::unordered_map<Package, std::unordered_set<Package>>] is iterated
      by several analyses and its iteration order is unspecified, so the
      adjacency map is an association list whose order IS the iteration
      order; every statement quantifies over all such lists, hence over all
      iteration orders.  Keys are unique and dependency sets are
      duplicate-free in the C++ containers: [wf_graph].
    - [inDegree], [visited] and [recStack] are only looked up, never
      iterated: they are a [gmap] and two [gset]s.
    - [int] counters are [Z]; signed overflow is undefined behaviour in C++
      and needs 2^31 calls, so no wrap-around is modelled.
    - [std::unordered_map::at] throws [std::out_of_range]; this is the
      [NotFound] outcome.  Recursion and the work-list loop are bounded by
      fuel; running out of fuel is a separate outcome that is proved
      unreachable with the fuel the entry points supply.
    - [std::cout] output is the list of lines printed. *)

From stdpp Require Import base decidable option list relations gmap strings sets.
From Stdlib Require Import ZArith Lia.

Local Open Scope Z_scope.
#[local] Set Warnings "-clear-no-such-hyp".

(** ** Package *)

(** [operator==] compares both fields, which is Leibniz equality on the
    record; [Package::Hash] only serves the hash containers and has no
    counterpart here. *)
Record Package : Type := mkPackage { name : string; version : string }.

#[global] Instance Package_eq_dec : EqDecision Package.
Proof. solve_decision. Defined.

#[global] Instance Package_countable : Countable Package.
Proof.
  refine (inj_countable' (fun p => (name p, version p))
                         (fun nv => mkPackage nv.1 nv.2) _).
  by intros [].
Defined.

(** ** Outcomes of operations that can throw *)

Inductive outcome (A : Type) : Type :=
| Done (a : A)
| NotFound
| OutOfFuel.
Arguments Done {A} a.
Arguments NotFound {A}.
Arguments OutOfFuel {A}.

(** ** DependencyGraph *)

Abbreviation DepSet := (list Package).
Abbreviation AdjMap := (list (Package * list Package)).

Record DependencyGraph : Type := mkGraph {
  graph : AdjMap;
  inDegree : gmap Package Z
}.

Definition emptyGraph : DependencyGraph := mkGraph [] ∅.

(** [graph.find(pkg)] *)
Fixpoint graph_find (g : AdjMap) (pkg : Package) : option DepSet :=
  match g with
  | [] => None
  | (p, ds) :: g' => if decide (p = pkg) then Some ds else graph_find g' pkg
  end.

(** [std::unordered_set::insert] *)
Definition set_insert (ds : DepSet) (d : Package) : DepSet :=
  if decide (d ∈ ds) then ds else ds ++ [d].

(** [graph[pkg].insert(dependency)]: [operator[]] creates the entry when
    the key is absent. *)
Fixpoint adj_insert (g : AdjMap) (pkg dependency : Package) : AdjMap :=
  match g with
  | [] => [(pkg, set_insert [] dependency)]
  | (p, ds) :: g' =>
      if decide (p = pkg) then (p, set_insert ds dependency) :: g'
      else (p, ds) :: adj_insert g' pkg dependency
  end.

Definition addPackage (st : DependencyGraph) (pkg : Package) : DependencyGraph :=
  {| graph := match graph_find (graph st) pkg with
              | None => graph st ++ [(pkg, [])]
              | Some _ => graph st
              end;
     inDegree := <[pkg := 0]> (inDegree st) |}.

(** [inDegree[dependency]++]: [operator[]] value-initialises a missing
    counter to 0 before the increment. *)
Definition addDependency (st : DependencyGraph) (pkg dependency : Package)
  : DependencyGraph :=
  {| graph := adj_insert (graph st) pkg dependency;
     inDegree := <[dependency := default 0 (inDegree st !! dependency) + 1]>
                   (inDegree st) |}.

Definition getDependencies (st : DependencyGraph) (pkg : Package) : outcome DepSet :=
  match graph_find (graph st) pkg with
  | Some ds => Done ds
  | None => NotFound
  end.

Definition getInDegree (st : DependencyGraph) (pkg : Package) : outcome Z :=
  match inDegree st !! pkg with
  | Some n => Done n
  | None => NotFound
  end.

Definition setInDegree (st : DependencyGraph) (pkg : Package) (degree : Z)
  : DependencyGraph :=
  {| graph := graph st; inDegree := <[pkg := degree]> (inDegree st) |}.

Definition packageExists (st : DependencyGraph) (pkg : Package) : bool :=
  bool_decide (graph_find (graph st) pkg ≠ None).

#[global] Instance outcome_ret : MRet outcome := fun A a => Done a.
#[global] Instance outcome_bind : MBind outcome := fun A B f c =>
  match c with
  | Done a => f a
  | NotFound => NotFound
  | OutOfFuel => OutOfFuel
  end.

(** ** CycleDetector *)

Record DfsState : Type := mkDfs {
  visited : gset Package;
  recStack : gset Package
}.

(** The loop shared by [detectCycle] and [detectCycleUtil]:
    [for (p : pkgs) if (visit(p)) return true;] falling through with
    [false]. *)
Fixpoint for_each_pkg (visit : Package → DfsState → outcome (bool * DfsState))
    (pkgs : list Package) (s : DfsState) : outcome (bool * DfsState) :=
  match pkgs with
  | [] => Done (false, s)
  | p :: rest =>
      match visit p s with
      | Done (true, s') => Done (true, s')
      | Done (false, s') => for_each_pkg visit rest s'
      | NotFound => NotFound
      | OutOfFuel => OutOfFuel
      end
  end.

(** [fuel] bounds the recursion depth.  Both sets are locals of
    [detectCycle] and are lost when [getDependencies] throws, so the
    outcome [NotFound] carries no state. *)
Fixpoint detectCycleUtil (fuel : nat) (st : DependencyGraph) (pkg : Package)
    (s : DfsState) : outcome (bool * DfsState) :=
  if decide (pkg ∈ recStack s) then Done (true, s)
  else if decide (pkg ∈ visited s) then Done (false, s)
  else
    let s1 := {| visited := {[pkg]} ∪ visited s;
                 recStack := {[pkg]} ∪ recStack s |} in
    ds ← getDependencies st pkg;
    match fuel with
    | O => OutOfFuel
    | S fuel' =>
        match for_each_pkg (detectCycleUtil fuel' st) ds s1 with
        | Done (false, s2) =>
            Done (false, {| visited := visited s2;
                            recStack := recStack s2 ∖ {[pkg]} |})
        | r => r
        end
    end.

Definition detectCycle (st : DependencyGraph) : outcome bool :=
  r ← for_each_pkg (detectCycleUtil (length (graph st)) st)
        (graph st).*1 (mkDfs ∅ ∅);
  mret r.1.

(** ** TopologicalSorter *)

(** The first loop: seed the queue with every key whose in-degree is 0. *)
Fixpoint seed (st : DependencyGraph) (pkgs : list Package)
    (zeroInDegreeQueue : list Package) : outcome (list Package) :=
  match pkgs with
  | [] => Done zeroInDegreeQueue
  | p :: rest =>
      n ← getInDegree st p;
      seed st rest (if decide (n = 0) then zeroInDegreeQueue ++ [p]
                    else zeroInDegreeQueue)
  end.

(** The inner loop over the dependencies of the dequeued package. *)
Fixpoint relax (ds : list Package) (st : DependencyGraph)
    (zeroInDegreeQueue : list Package)
    : outcome (DependencyGraph * list Package) :=
  match ds with
  | [] => Done (st, zeroInDegreeQueue)
  | dep :: rest =>
      n ← getInDegree st dep;
      let st' := setInDegree st dep (n - 1) in
      m ← getInDegree st' dep;
      relax rest st' (if decide (m = 0) then zeroInDegreeQueue ++ [dep]
                      else zeroInDegreeQueue)
  end.

(** The [while (!zeroInDegreeQueue.empty())] loop; [fuel] bounds the
    number of iterations.  When a lookup throws, the counters decremented
    so far stay changed in the caller's graph; nothing below depends on
    that state, so [NotFound] carries none. *)
Fixpoint sort_loop (fuel : nat) (st : DependencyGraph)
    (zeroInDegreeQueue sortedPackages : list Package)
    : outcome (list Package * DependencyGraph) :=
  match zeroInDegreeQueue with
  | [] => Done (sortedPackages, st)
  | pkg :: queue' =>
      ds ← getDependencies st pkg;
      match fuel with
      | O => OutOfFuel
      | S fuel' =>
          r ← relax ds st queue';
          sort_loop fuel' r.1 r.2 (sortedPackages ++ [pkg])
      end
  end.

Record SortRun : Type := mkSortRun {
  sortedPackages : list Package;
  graph_after : DependencyGraph;
  sort_printed : list string
}.

Definition package_line (p : Package) : string :=
  (name p +:+ " " +:+ version p)%string.

Definition topologicalSort (st : DependencyGraph) : outcome SortRun :=
  queue ← seed st (graph st).*1 [];
  r ← sort_loop (length (graph st)) st queue [];
  mret {| sortedPackages := r.1;
          graph_after := r.2;
          sort_printed :=
            if decide (length r.1 ≠ length (graph r.2))
            then ["Cycle detected! Topological sort is not possible."%string]
            else "Topological Order (Build Order):"%string
                 :: map package_line r.1 |}.

(** ** VersionResolver and ConflictDetector *)

Definition resolveVersion (pkg1 pkg2 : Package) : bool :=
  bool_decide (version pkg1 = version pkg2).

Definition conflict_line (pkg dep : Package) : string :=
  ("Conflict detected: " +:+ name pkg +:+ " and " +:+ name dep
   +:+ " have incompatible versions.")%string.

Fixpoint conflict_deps (pkg : Package) (ds : DepSet) : option string :=
  match ds with
  | [] => None
  | dep :: rest =>
      if negb (resolveVersion pkg dep) then Some (conflict_line pkg dep)
      else conflict_deps pkg rest
  end.

Fixpoint conflict_pairs (g : AdjMap) : bool * list string :=
  match g with
  | [] => (false, [])
  | (pkg, ds) :: g' =>
      match conflict_deps pkg ds with
      | Some line => (true, [line])
      | None => conflict_pairs g'
      end
  end.

Definition detectConflict (st : DependencyGraph) : bool * list string :=
  conflict_pairs (graph st).

(** ** Visualizer *)

Definition dquote : string := String (Ascii.ascii_of_nat 34) EmptyString.

Definition edge_line (pkg dep : Package) : string :=
  ("  " +:+ dquote +:+ name pkg +:+ " " +:+ version pkg +:+ dquote
   +:+ " -> " +:+ dquote +:+ name dep +:+ " " +:+ version dep +:+ dquote
   +:+ ";")%string.

Definition visualize (st : DependencyGraph) : list string :=
  "digraph dependencies {"%string
  :: (graph st ≫= fun pr => edge_line pr.1 <$> pr.2)
  ++ ["}"%string].

(** ** ImpactAnalyzer *)

(** The keys for which [analyzeImpact] prints a line, in print order. *)
Definition impactDependents (st : DependencyGraph) (pkg : Package)
  : list Package :=
  (filter (fun pr => pkg ∈ pr.2) (graph st)).*1.

Definition impact_line (p pkg : Package) : string :=
  ("Package " +:+ name p +:+ " depends on " +:+ name pkg)%string.

Definition analyzeImpact (st : DependencyGraph) (pkg : Package) : list string :=
  ("Impact analysis for package: " +:+ name pkg)%string
  :: ((fun p => impact_line p pkg) <$> impactDependents st pkg).

(** ** Graph vocabulary used by the statements *)

Definition keys (g : AdjMap) : list Package := g.*1.

(** All edge targets, with multiplicity, in iteration order. *)
Definition targets (g : AdjMap) : list Package := g ≫= snd.

(** Unique keys and duplicate-free dependency sets: what the C++
    containers guarantee. *)
Definition wf_graph (g : AdjMap) : Prop :=
  NoDup (keys g) ∧ Forall (fun pr => NoDup pr.2) g.

(** [edge g p d]: [d] is in the dependency set stored for [p]. *)
Definition edge (g : AdjMap) (p d : Package) : Prop :=
  ∃ ds, graph_find g p = Some ds ∧ d ∈ ds.

(** Every dependency target is registered as a key. *)
Definition closed (g : AdjMap) : Prop :=
  Forall (fun d => is_Some (graph_find g d)) (targets g).

Definition cyclic (g : AdjMap) : Prop := ∃ p, tc (edge g) p p.
Definition acyclic (g : AdjMap) : Prop := ∀ p, ¬ tc (edge g) p p.

(** The number of packages whose dependency set contains [x]. *)
Definition indegree_count (g : AdjMap) (x : Package) : nat :=
  length (filter (fun pr => x ∈ pr.2) g).

(** In-degrees are freshly computed: every key and every edge target
    carries the number of its dependents. *)
Definition fresh (st : DependencyGraph) : Prop :=
  Forall (fun x => inDegree st !! x
                   = Some (Z.of_nat (indegree_count (graph st) x)))
         (keys (graph st) ++ targets (graph st)).

(** [p] occurs at a strictly smaller index than [d] in [l]. *)
Definition before (l : list Package) (p d : Package) : Prop :=
  ∃ i j : nat, l !! i = Some p ∧ l !! j = Some d ∧ (i < j)%nat.

#[global] Instance wf_graph_dec g : Decision (wf_graph g).
Proof. unfold wf_graph. apply _. Defined.
#[global] Instance closed_dec g : Decision (closed g).
Proof. unfold closed. apply _. Defined.
#[global] Instance fresh_dec st : Decision (fresh st).
Proof. unfold fresh. apply _. Defined.

(** The graph built by [main]. *)
Definition pkgA : Package := mkPackage "pkgA" "1.0.1".
Definition pkgB : Package := mkPackage "pkgB" "2.3.0".
Definition pkgC : Package := mkPackage "pkgC" "3.1.2".
Definition pkgD : Package := mkPackage "pkgD" "1.5.0".

Definition main_graph : DependencyGraph :=
  let st := addPackage emptyGraph pkgA in
  let st := addPackage st pkgB in
  let st := addPackage st pkgC in
  let st := addPackage st pkgD in
  let st := addDependency st pkgA pkgB in
  let st := addDependency st pkgB pkgC in
  addDependency st pkgA pkgD.

(** [main_graph] with the edge C -> A added: the cycle A -> B -> C -> A. *)
Definition cyclic_graph : DependencyGraph := addDependency main_graph pkgC pkgA.

(** [main_graph] with an edge from C to a package never registered. *)
Definition pkgX : Package := mkPackage "pkgX" "0.0.1".
Definition orphan_graph : DependencyGraph := addDependency main_graph pkgC pkgX.

(** The position of [p] in [l] ([length l] when absent): a rank function
    for exhibiting acyclic graphs. *)
Fixpoint rank_in (l : list Package) (p : Package) : nat :=
  match l with
  | [] => O
  | q :: l' => if decide (q = p) then O else S (rank_in l' p)
  end.

(** B is registered a second time after the edge A -> B was added. *)
Definition reregistered_graph : DependencyGraph :=
  let st := addPackage (addPackage emptyGraph pkgA) pkgB in
  addPackage (addDependency st pkgA pkgB) pkgB.

(** The edge A -> B is added twice. *)
Definition duplicate_edge_graph : DependencyGraph :=
  let st := addPackage (addPackage emptyGraph pkgA) pkgB in
  addDependency (addDependency st pkgA pkgB) pkgA pkgB.

(** All (package, dependency) pairs in the order the nested loops of
    [detectConflict] and [visualize] meet them. *)
Definition edge_list (g : AdjMap) : list (Package * Package) :=
  g ≫= (fun pr => pair pr.1 <$> pr.2).

(** A counter that can no longer reach zero by decrements. *)
Definition nonpos (deg : gmap Package Z) (x : Package) : Prop :=
  ∃ z, deg !! x = Some z ∧ z ≤ 0.

(** ** Invariants of the depth-first search *)

(** Keys not yet visited: the measure that bounds the recursion depth. *)
Definition unvisited (g : AdjMap) (s : DfsState) : nat :=
  length (filter (fun k => k ∉ visited s) (keys g)).

(** A package is finished when it is visited and off the recursion stack.
    Finished packages are registered, closed under edges and lie on no
    cycle. *)
Record dfs_inv (g : AdjMap) (s : DfsState) : Prop := mkDfsInv {
  inv_stack : recStack s ⊆ visited s;
  inv_keys : ∀ v, v ∈ visited s → is_Some (graph_find g v);
  inv_closed : ∀ v d, v ∈ visited s → v ∉ recStack s → edge g v d →
                      d ∈ visited s ∧ d ∉ recStack s;
  inv_acyc : ∀ v, v ∈ visited s → v ∉ recStack s → ¬ tc (edge g) v v
}.

(** What a traversal started in state [s] over [pkgs] establishes. *)
Definition dfs_post (g : AdjMap) (s : DfsState) (pkgs : list Package)
    (r : outcome (bool * DfsState)) : Prop :=
  match r with
  | Done (false, s') =>
      dfs_inv g s' ∧ recStack s' = recStack s ∧ visited s ⊆ visited s'
      ∧ ∀ p, p ∈ pkgs → p ∈ visited s' ∧ p ∉ recStack s'
  | Done (true, _) => cyclic g
  | NotFound => ¬ closed g
  | OutOfFuel => False
  end.

(** What a traversal may assume: the invariant, every package on the
    recursion stack reaches each package about to be visited, those
    packages are keys or edge targets, and the fuel covers the keys left. *)
Definition dfs_pre (g : AdjMap) (fuel : nat) (s : DfsState)
    (pkgs : list Package) : Prop :=
  dfs_inv g s
  ∧ (∀ p r, p ∈ pkgs → r ∈ recStack s → tc (edge g) r p)
  ∧ (∀ p, p ∈ pkgs → p ∈ keys g ++ targets g)
  ∧ (unvisited g s ≤ fuel)%nat.

(** ** Invariants of Kahn's algorithm *)

(** The dependents of [x] that are not yet in [sorted]. *)
Definition remaining (g : AdjMap) (sorted : list Package) (x : Package) : nat :=
  length (filter (fun pr => x ∈ pr.2 ∧ pr.1 ∉ sorted) g).

(** Between two iterations of the work-list loop, on fresh in-degrees:
    the counter of every package is the number of its dependents still to
    be output, and a package is queued or output exactly when that number
    is zero. *)
Record kahn_inv (g : AdjMap) (deg : gmap Package Z)
    (queue sorted : list Package) : Prop := mkKahnInv {
  k_nodup : NoDup (sorted ++ queue);
  k_keys : ∀ x, x ∈ sorted → x ∈ keys g;
  k_known : ∀ x, x ∈ queue → x ∈ keys g ++ targets g;
  k_deg : ∀ x, x ∈ keys g ++ targets g →
               deg !! x = Some (Z.of_nat (remaining g sorted x));
  k_zero : ∀ x, x ∈ keys g ++ targets g →
                (remaining g sorted x = 0%nat ↔ x ∈ sorted ++ queue);
  k_order : ∀ p x, x ∈ sorted → edge g p x → before sorted p x
}.

(** Inside the inner loop, with [todo] the dependencies still to be
    decremented and [sorted] already holding the dequeued package. *)
Record relax_inv (g : AdjMap) (deg : gmap Package Z)
    (queue sorted todo : list Package) : Prop := mkRelaxInv {
  r_nodup : NoDup (sorted ++ queue);
  r_known : ∀ x, x ∈ queue → x ∈ keys g ++ targets g;
  r_deg : ∀ x, x ∈ keys g ++ targets g →
               deg !! x = Some (Z.of_nat (remaining g sorted x
                                 + (if decide (x ∈ todo) then 1 else 0)));
  r_zero : ∀ x, x ∈ keys g ++ targets g → x ∉ todo →
                (remaining g sorted x = 0%nat ↔ x ∈ sorted ++ queue);
  r_todo : ∀ x, x ∈ todo → x ∉ sorted ++ queue
}.

(** What [sort_loop] establishes. *)
Definition sort_post (st : DependencyGraph)
    (r : outcome (list Package * DependencyGraph)) : Prop :=
  match r with
  | Done (sorted, st') =>
      graph st' = graph st ∧ kahn_inv (graph st) (inDegree st') [] sorted
  | NotFound => ¬ closed (graph st)
  | OutOfFuel => False
  end.

(** Whatever the counters are: a package that has entered the queue has a
    counter at or below zero and can never be queued again. *)
Definition queue_inv (deg : gmap Package Z) (queue sorted : list Package)
  : Prop :=
  NoDup (sorted ++ queue) ∧ ∀ x, x ∈ sorted ++ queue → nonpos deg x.

(** ** Package::Hash *)

(** [std::hash<std::string>] is implementation-defined and is taken as a
    parameter; [size_t] values are [Z], and [^] on them is [Z.lxor]. *)
Definition Package_hash (std_hash : string → Z) (p : Package) : Z :=
  Z.lxor (std_hash (name p)) (std_hash (version p)).

(** ** main *)

(** Lines 205 to 225 of [main], with the graph built in lines 189 to 203
    and the package handed to [analyzeImpact] as arguments: the exit code
    and the lines printed.  [detectCycle] prints nothing itself; the sorter
    works on the caller's graph, so the later analyses see its counters. *)
Definition main_pipeline (st : DependencyGraph) (pkg : Package)
  : outcome (Z * list string) :=
  cyc ← detectCycle st;
  if (cyc : bool)
  then mret (1, ["Cycle detected! Resolving is not possible."%string])
  else
    r ← topologicalSort st;
    let conflict := detectConflict (graph_after r) in
    mret (0, sort_printed r
             ++ conflict.2
             ++ (if conflict.1 then ["Conflict detected!"%string] else [])
             ++ visualize (graph_after r)
             ++ analyzeImpact (graph_after r) pkg).

Definition main : outcome (Z * list string) := main_pipeline main_graph pkgB.

(** ** Sequences of calls to the graph's mutators *)

Inductive Call : Type :=
| AddPackage (pkg : Package)
| AddDependency (pkg dependency : Package).

Definition apply_call (st : DependencyGraph) (c : Call) : DependencyGraph :=
  match c with
  | AddPackage pkg => addPackage st pkg
  | AddDependency pkg dependency => addDependency st pkg dependency
  end.

Definition apply_calls (st : DependencyGraph) (cs : list Call)
  : DependencyGraph :=
  foldl apply_call st cs.

(** The calls of [main], in order. *)
Definition main_calls : list Call :=
  [AddPackage pkgA; AddPackage pkgB; AddPackage pkgC; AddPackage pkgD;
   AddDependency pkgA pkgB; AddDependency pkgB pkgC; AddDependency pkgA pkgD].

(** A call that keeps the counters in step with the adjacency map: a
    package is registered before any package depends on it, and an edge is
    added once, from a registered package. *)
Definition call_ok (st : DependencyGraph) (c : Call) : Prop :=
  match c with
  | AddPackage pkg => pkg ∉ targets (graph st)
  | AddDependency pkg dependency =>
      pkg ∈ keys (graph st)
      ∧ dependency ∉ default [] (graph_find (graph st) pkg)
  end.

Fixpoint calls_ok (st : DependencyGraph) (cs : list Call) : Prop :=
  match cs with
  | [] => True
  | c :: cs' => call_ok st c ∧ calls_ok (apply_call st c) cs'
  end.

(** Fresh counters and no counter for a package the adjacency map does
    not mention. *)
Definition counted (st : DependencyGraph) : Prop :=
  wf_graph (graph st) ∧ fresh st
  ∧ ∀ x, is_Some (inDegree st !! x) → x ∈ keys (graph st) ++ targets (graph st).

(** Two adjacency maps with the same keys and the same edges, whatever
    the iteration orders of the map and of its sets. *)
Definition same_graph (g g' : AdjMap) : Prop :=
  keys g ⊆ keys g' ∧ keys g' ⊆ keys g
  ∧ edge_list g ⊆ edge_list g' ∧ edge_list g' ⊆ edge_list g.

#[global] Instance same_graph_dec g g' : Decision (same_graph g g').
Proof. unfold same_graph. apply _. Defined.

(** * Properties *)

(** ** The adjacency map *)

Lemma graph_find_Some_elem g p ds : graph_find g p = Some ds → (p, ds) ∈ g.
Proof.
  induction g as [|[q qs] g IH]; simpl; [done|].
  case_decide as Hq.
  - intros [= ->]. subst. apply elem_of_cons. by left.
  - intros H. apply elem_of_cons. right. by apply IH.
Qed.

Lemma graph_find_None g p : graph_find g p = None ↔ p ∉ keys g.
Proof.
  unfold keys. induction g as [|[q qs] g IH]; simpl.
  - split; [intros _ H; inversion H | done].
  - rewrite not_elem_of_cons. case_decide as Hq; subst.
    + split; [done | intros [? _]; done].
    + rewrite IH. naive_solver.
Qed.

Lemma graph_find_is_Some g p : is_Some (graph_find g p) ↔ p ∈ keys g.
Proof.
  destruct (graph_find g p) eqn:E.
  - split; [intros _ | by eauto].
    destruct (decide (p ∈ keys g)) as [|Hn]; [done|].
    apply graph_find_None in Hn. congruence.
  - apply graph_find_None in E. split; [by intros [? [=]] | done].
Qed.

Lemma graph_find_elem g p ds :
  NoDup (keys g) → (p, ds) ∈ g → graph_find g p = Some ds.
Proof.
  unfold keys. induction g as [|[q qs] g IH]; simpl.
  - intros _ H. inversion H.
  - rewrite NoDup_cons. intros [Hq Hnd] [H|H]%elem_of_cons.
    + simplify_eq. by rewrite decide_True.
    + rewrite decide_False; [by apply IH|].
      intros ->. apply Hq. by apply (list_elem_of_fmap_2 fst _ (p, ds)).
Qed.

Lemma edge_source g p d : edge g p d → p ∈ keys g.
Proof. intros (ds & Hf & _). apply graph_find_is_Some. eauto. Qed.

Lemma edge_target g p d : edge g p d → d ∈ targets g.
Proof.
  intros (ds & Hf & Hd). apply list_elem_of_bind.
  exists (p, ds). split; [done | by apply graph_find_Some_elem].
Qed.

Lemma target_edge g d : NoDup (keys g) → d ∈ targets g → ∃ p, edge g p d.
Proof.
  intros Hnd ([p ds] & Hd & Hin)%list_elem_of_bind.
  exists p, ds. split; [by apply graph_find_elem | done].
Qed.

Lemma closed_edge g p d : closed g → edge g p d → is_Some (graph_find g d).
Proof.
  intros Hc He. unfold closed in Hc. rewrite Forall_forall in Hc.
  eapply Hc, edge_target, He.
Qed.

Lemma tc_edge_source g p d : tc (edge g) p d → p ∈ keys g.
Proof. destruct 1; eauto using edge_source. Qed.

(** ** Depth-first search *)

Lemma detectCycleUtil_unfold fuel st pkg s :
  detectCycleUtil fuel st pkg s =
  if decide (pkg ∈ recStack s) then Done (true, s)
  else if decide (pkg ∈ visited s) then Done (false, s)
  else
    ds ← getDependencies st pkg;
    match fuel with
    | O => OutOfFuel
    | S fuel' =>
        match for_each_pkg (detectCycleUtil fuel' st) ds
                {| visited := {[pkg]} ∪ visited s;
                   recStack := {[pkg]} ∪ recStack s |} with
        | Done (false, s2) =>
            Done (false, {| visited := visited s2;
                            recStack := recStack s2 ∖ {[pkg]} |})
        | r => r
        end
    end.
Proof. by destruct fuel. Qed.

Lemma filter_notin_mono (ks : list Package) (V V' : gset Package) :
  V ⊆ V' →
  (length (filter (fun k => k ∉ V') ks)
   ≤ length (filter (fun k => k ∉ V) ks))%nat.
Proof.
  intros Hsub. induction ks as [|k ks IH]; [done|].
  rewrite !filter_cons.
  destruct (decide (k ∉ V')), (decide (k ∉ V)); simpl; try lia.
  set_solver.
Qed.

Lemma unvisited_mono g s s' :
  visited s ⊆ visited s' → (unvisited g s' ≤ unvisited g s)%nat.
Proof. apply filter_notin_mono. Qed.

Lemma unvisited_visit g s s' pkg :
  pkg ∈ keys g → pkg ∉ visited s → visited s' = {[pkg]} ∪ visited s →
  (unvisited g s' < unvisited g s)%nat.
Proof.
  intros Hk Hv Hs'. unfold unvisited. rewrite Hs'.
  induction (keys g) as [|k ks IH]; [by inversion Hk|].
  rewrite !filter_cons.
  pose proof (filter_notin_mono ks (visited s) ({[pkg]} ∪ visited s)
                ltac:(set_solver)) as Hle.
  apply elem_of_cons in Hk as [<-|Hk].
  - rewrite decide_False by set_solver. rewrite decide_True by done.
    simpl. lia.
  - specialize (IH Hk).
    destruct (decide (k ∉ {[pkg]} ∪ visited s)), (decide (k ∉ visited s));
      simpl; try lia. set_solver.
Qed.

Lemma dfs_inv_push g s pkg :
  dfs_inv g s → pkg ∉ visited s → is_Some (graph_find g pkg) →
  dfs_inv g {| visited := {[pkg]} ∪ visited s;
               recStack := {[pkg]} ∪ recStack s |}.
Proof.
  intros [H1 H2 H3 H4] Hv Hk. split; simpl.
  - set_solver.
  - intros v [->%elem_of_singleton|Hin]%elem_of_union; auto.
  - intros v d Hin Hnin He.
    assert (v ∈ visited s ∧ v ∉ recStack s) as [Hv1 Hv2] by set_solver.
    destruct (H3 v d Hv1 Hv2 He). set_solver.
  - intros v Hin Hnin. apply H4; set_solver.
Qed.

Lemma dfs_inv_pop g s s2 pkg ds :
  pkg ∉ visited s → recStack s ⊆ visited s →
  graph_find g pkg = Some ds →
  dfs_inv g s2 → recStack s2 = {[pkg]} ∪ recStack s →
  (∀ p, p ∈ ds → p ∈ visited s2 ∧ p ∉ recStack s2) →
  dfs_inv g {| visited := visited s2; recStack := recStack s2 ∖ {[pkg]} |}.
Proof.
  intros Hv Hsub Hf [H1 H2 H3 H4] Hrec Hds.
  assert (∀ v d, v ∈ visited s2 → v ∉ recStack s2 ∖ {[pkg]} →
                 edge g v d → d ∈ visited s2 ∧ d ∉ recStack s2) as Hcl.
  { intros v d Hin Hnin He.
    destruct (decide (v = pkg)) as [->|Hne].
    - destruct He as (ds' & Hf' & Hd). simplify_eq. by apply Hds.
    - apply (H3 v); [done | set_solver | done]. }
  split; simpl.
  - set_solver.
  - done.
  - intros v d Hin Hnin He. destruct (Hcl v d Hin Hnin He). set_solver.
  - intros v Hin Hnin Hcyc.
    destruct (decide (v = pkg)) as [->|Hne].
    + (* a cycle through [pkg] leaves through a finished dependency and
         can never come back to the stack *)
      assert (∀ a b, tc (edge g) a b → a ∈ visited s2 → a ∉ recStack s2 →
                     b ∈ visited s2 ∧ b ∉ recStack s2) as Hreach.
      { induction 1 as [a b He|a b c He _ IH]; intros Ha1 Ha2.
        - by apply (H3 a).
        - destruct (H3 a b Ha1 Ha2 He). by apply IH. }
      assert (pkg ∈ recStack s2) as Hstack by set_solver.
      inversion Hcyc as [? ? He|? b ? He Htc]; subst.
      * destruct (Hcl pkg pkg Hin Hnin He). done.
      * destruct (Hcl pkg b Hin Hnin He) as [Hb1 Hb2].
        destruct (Hreach b pkg Htc Hb1 Hb2). done.
    + apply (H4 v); [done | set_solver | done].
Qed.

Lemma for_each_pkg_spec g visit fuel :
  (∀ pkg s, dfs_pre g fuel s [pkg] → dfs_post g s [pkg] (visit pkg s)) →
  ∀ pkgs s, dfs_pre g fuel s pkgs →
            dfs_post g s pkgs (for_each_pkg visit pkgs s).
Proof.
  intros Hvisit pkgs.
  induction pkgs as [|a pkgs IH]; intros s (Hinv & Hreach & Hknown & Hfuel).
  - simpl. split_and!; [done..|]. intros p Hp. inversion Hp.
  - simpl.
    assert (dfs_pre g fuel s [a]) as Hpre.
    { split_and!; [done| | |done].
      - intros p r ->%list_elem_of_singleton. apply Hreach. by left.
      - intros p ->%list_elem_of_singleton. apply Hknown. by left. }
    specialize (Hvisit a s Hpre).
    destruct (visit a s) as [[[] s']| |]; simpl in *; [done| |done..].
    destruct Hvisit as (Hinv' & Hrec & Hvis & Ha).
    assert (dfs_pre g fuel s' pkgs) as Hpre'.
    { split_and!; [done| | |].
      - intros p r Hp. rewrite Hrec. apply Hreach. by right.
      - intros p Hp. apply Hknown. by right.
      - etrans; [by apply unvisited_mono | done]. }
    specialize (IH s' Hpre').
    destruct (for_each_pkg visit pkgs s') as [[[] s'']| |]; simpl in *;
      [done| |done..].
    destruct IH as (Hinv'' & Hrec' & Hvis' & Hall).
    split_and!; [done|congruence|set_solver|].
    intros p [->|Hp]%elem_of_cons; [|by apply Hall].
    destruct (Ha a) as [Ha1 Ha2]; [by left|].
    split; [set_solver | congruence].
Qed.

Lemma detectCycleUtil_spec st fuel pkg s :
  dfs_pre (graph st) fuel s [pkg] →
  dfs_post (graph st) s [pkg] (detectCycleUtil fuel st pkg s).
Proof.
  revert pkg s. induction fuel as [|fuel IH];
    intros pkg s (Hinv & Hreach & Hknown & Hfuel);
    rewrite detectCycleUtil_unfold.
  all: destruct (decide (pkg ∈ recStack s)) as [Hrec|Hrec];
    [simpl; exists pkg; apply Hreach; [by left | done]|].
  all: destruct (decide (pkg ∈ visited s)) as [Hvis|Hvis];
    [simpl; split_and!; [done..|];
     by intros p ->%list_elem_of_singleton|].
  all: unfold getDependencies;
    destruct (graph_find (graph st) pkg) as [ds|] eqn:Hfind; simpl.
  all: try (intros Hclosed;
    apply graph_find_None in Hfind;
    specialize (Hknown pkg (ltac:(by left)));
    apply elem_of_app in Hknown as [Hk|Hk]; [done|];
    unfold closed in Hclosed; rewrite Forall_forall in Hclosed;
    apply Hclosed, graph_find_is_Some in Hk; done).
  all: assert (pkg ∈ keys (graph st)) as Hkey
    by (apply graph_find_is_Some; eauto).
  - pose proof (unvisited_visit (graph st) s
      {| visited := {[pkg]} ∪ visited s; recStack := ∅ |} pkg Hkey Hvis
      eq_refl). lia.
  - set (s1 := {| visited := {[pkg]} ∪ visited s;
                  recStack := {[pkg]} ∪ recStack s |}).
    assert (dfs_pre (graph st) fuel s1 ds) as Hpre.
    { split_and!.
      - apply dfs_inv_push; [done..|]. eauto.
      - intros p r Hp [->%elem_of_singleton|Hr]%elem_of_union.
        + apply tc_once. by exists ds.
        + eapply tc_r; [apply Hreach; [by left|done] | by exists ds].
      - intros p Hp. apply elem_of_app. right.
        apply (edge_target _ pkg). by exists ds.
      - pose proof (unvisited_visit (graph st) s s1 pkg Hkey Hvis eq_refl).
        lia. }
    pose proof (for_each_pkg_spec (graph st) (detectCycleUtil fuel st) fuel
                  IH ds s1 Hpre) as Hloop.
    destruct (for_each_pkg (detectCycleUtil fuel st) ds s1)
      as [[[] s2]| |]; simpl in *; [done| |done..].
    destruct Hloop as (Hinv2 & Hrec2 & Hvis2 & Hall).
    split_and!.
    + eapply dfs_inv_pop; [exact Hvis|apply Hinv|exact Hfind|done..].
    + rewrite Hrec2. set_solver.
    + set_solver.
    + intros p ->%list_elem_of_singleton. set_solver.
Qed.

(** The four possible outcomes of [detectCycle] and what each one tells
    about the graph. *)
Lemma detectCycle_outcome st :
  match detectCycle st with
  | Done false =>
      acyclic (graph st)
      ∧ ∀ p d, edge (graph st) p d → is_Some (graph_find (graph st) d)
  | Done true => cyclic (graph st)
  | NotFound => ¬ closed (graph st)
  | OutOfFuel => False
  end.
Proof.
  unfold detectCycle.
  assert (dfs_pre (graph st) (length (graph st)) (mkDfs ∅ ∅)
            (graph st).*1) as Hpre.
  { split_and!.
    - split; simpl; set_solver.
    - simpl. set_solver.
    - intros p Hp. apply elem_of_app. by left.
    - unfold unvisited, keys. etrans; [apply length_filter|].
      by rewrite length_fmap. }
  pose proof (for_each_pkg_spec (graph st) _ _
    (detectCycleUtil_spec st (length (graph st))) _ _ Hpre) as Hloop.
  destruct (for_each_pkg _ _ _) as [[[] s']| |]; simpl in *; [done| |done..].
  destruct Hloop as (Hinv & Hrec & _ & Hall).
  split.
  - intros p Hcyc.
    destruct (Hall p (tc_edge_source _ _ _ Hcyc)) as [Hp1 Hp2].
    by apply (inv_acyc _ _ Hinv p).
  - intros p d He.
    destruct (Hall p (edge_source _ _ _ He)) as [Hp1 Hp2].
    destruct (inv_closed _ _ Hinv p d Hp1 Hp2 He) as [Hd1 _].
    by apply (inv_keys _ _ Hinv).
Qed.

Lemma detectCycle_spec st :
  NoDup (keys (graph st)) →
  match detectCycle st with
  | Done false => closed (graph st) ∧ acyclic (graph st)
  | Done true => cyclic (graph st)
  | NotFound => ¬ closed (graph st)
  | OutOfFuel => False
  end.
Proof.
  intros Hnd. pose proof (detectCycle_outcome st) as Hout.
  destruct (detectCycle st) as [[]| |]; [done| |done..].
  destruct Hout as [Hac Hcl]. split; [|done].
  unfold closed. apply Forall_forall. intros d Hd.
  destruct (target_edge _ _ Hnd Hd) as [p He]. by apply (Hcl p).
Qed.

(** ** Counting dependents *)

Lemma remaining_nil g x : remaining g [] x = indegree_count g x.
Proof.
  unfold remaining, indegree_count. f_equal.
  apply list_filter_iff. intros pr. split; [by intros [? _]|].
  intros ?. split; [done | apply not_elem_of_nil].
Qed.

Lemma remaining_zero g sorted x :
  remaining g sorted x = 0%nat ↔
  ∀ p ds, (p, ds) ∈ g → x ∈ ds → p ∈ sorted.
Proof.
  unfold remaining. split.
  - intros H%nil_length_inv p ds Hin Hx.
    destruct (decide (p ∈ sorted)) as [|Hn]; [done|].
    by destruct (filter_nil_not_elem_of _ _ (p, ds) H).
  - intros H. induction g as [|[q qs] g IH]; [done|].
    rewrite filter_cons. destruct (decide _) as [[Hx Hq]|_]; simpl in *.
    + destruct Hq. apply (H q qs); [by left | done].
    + apply IH. intros p ds Hin. apply H. by right.
Qed.

Lemma remaining_other g sorted pkg x :
  pkg ∉ keys g → remaining g (sorted ++ [pkg]) x = remaining g sorted x.
Proof.
  intros Hk. unfold remaining. f_equal.
  induction g as [|[q qs] g IH]; [done|].
  unfold keys in Hk. simpl in Hk. apply not_elem_of_cons in Hk as [Hne Hk].
  rewrite !filter_cons, (IH Hk).
  destruct (decide (x ∈ (q, qs).2 ∧ (q, qs).1 ∉ sorted ++ [pkg])) as [H1|H1],
    (decide (x ∈ (q, qs).2 ∧ (q, qs).1 ∉ sorted)) as [H2|H2];
    simpl in *; try done.
  - destruct H2. set_solver.
  - destruct H1. rewrite not_elem_of_app, list_elem_of_singleton. naive_solver.
Qed.

(** Outputting [pkg] takes one dependent away from each of its
    dependencies and from no other package. *)
Lemma remaining_pop g sorted pkg ds x :
  NoDup (keys g) → graph_find g pkg = Some ds → pkg ∉ sorted →
  remaining g sorted x
  = (remaining g (sorted ++ [pkg]) x + (if decide (x ∈ ds) then 1 else 0))%nat.
Proof.
  intros Hnd Hf Hs. induction g as [|[q qs] g IH]; [done|].
  unfold keys in Hnd. simpl in Hnd, Hf. apply NoDup_cons in Hnd as [Hq Hnd].
  destruct (decide (q = pkg)) as [->|Hne].
  - simplify_eq.
    pose proof (remaining_other g sorted pkg x Hq) as Ho.
    unfold remaining in *. rewrite !filter_cons. simpl.
    rewrite (decide_False (P := x ∈ ds ∧ pkg ∉ sorted ++ [pkg]))
      by (intros [_ H]; apply H; set_solver).
    rewrite Ho.
    destruct (decide (x ∈ ds)).
    + rewrite decide_True by done. simpl. lia.
    + rewrite decide_False by naive_solver. lia.
  - specialize (IH Hnd Hf). unfold remaining in *. rewrite !filter_cons.
    simpl.
    destruct (decide (x ∈ qs ∧ q ∉ sorted ++ [pkg])) as [H1|H1],
      (decide (x ∈ qs ∧ q ∉ sorted)) as [H2|H2]; simpl; try lia.
    + destruct H2. set_solver.
    + destruct H1. rewrite not_elem_of_app, list_elem_of_singleton.
      naive_solver.
Qed.

Lemma indegree_count_target g x :
  x ∈ targets g → (0 < indegree_count g x)%nat.
Proof.
  intros ([p ds] & Hx & Hin)%list_elem_of_bind. unfold indegree_count.
  assert ((p, ds) ∈ filter (fun pr => x ∈ pr.2) g) as H
    by by apply list_elem_of_filter.
  destruct (filter _ g); [inversion H | simpl; lia].
Qed.

(** ** Ordering by index *)

Lemma before_snoc l p d x : before l p d → before (l ++ [x]) p d.
Proof.
  intros (i & j & Hi & Hj & Hlt). exists i, j.
  split_and!; [by apply lookup_app_l_Some..|done].
Qed.

Lemma before_last l p x : p ∈ l → before (l ++ [x]) p x.
Proof.
  intros [i Hi]%list_elem_of_lookup. exists i, (length l).
  split_and!.
  - by apply lookup_app_l_Some.
  - by rewrite list_lookup_middle.
  - by apply lookup_lt_Some in Hi.
Qed.

Lemma before_trans l a b c :
  NoDup l → before l a b → before l b c → before l a c.
Proof.
  intros Hnd (i & j & Hi & Hj & Hij) (j' & k & Hj' & Hk & Hjk).
  assert (j = j') as <- by by eapply NoDup_lookup.
  exists i, k. split_and!; [done..|lia].
Qed.

Lemma before_irrefl l a : NoDup l → ¬ before l a a.
Proof.
  intros Hnd (i & j & Hi & Hj & Hij).
  assert (i = j) by by eapply NoDup_lookup. lia.
Qed.

(** ** Kahn's algorithm on fresh in-degrees *)

Lemma getInDegree_Some st p n :
  inDegree st !! p = Some n → getInDegree st p = Done n.
Proof. unfold getInDegree. by intros ->. Qed.

Lemma getInDegree_None st p :
  inDegree st !! p = None → getInDegree st p = NotFound.
Proof. unfold getInDegree. by intros ->. Qed.

Lemma getInDegree_set st p n : getInDegree (setInDegree st p n) p = Done n.
Proof. unfold getInDegree, setInDegree. simpl. by rewrite lookup_insert_eq. Qed.

Lemma outcome_bind_Done {A B} (f : A → outcome B) (a : A) :
  (Done a ≫= f) = f a.
Proof. done. Qed.

Lemma relax_spec g sorted :
  ∀ todo st queue,
    graph st = g → NoDup todo → (∀ x, x ∈ todo → x ∈ keys g ++ targets g) →
    relax_inv g (inDegree st) queue sorted todo →
    ∃ st' queue', relax todo st queue = Done (st', queue')
                  ∧ graph st' = g
                  ∧ relax_inv g (inDegree st') queue' sorted [].
Proof.
  induction todo as [|dep rest IH]; intros st queue Hg Hnd Hknown Hinv.
  - exists st, queue. by split_and!.
  - apply NoDup_cons in Hnd as [Hdep Hnd].
    destruct Hinv as [R1 R2 R3 R4 R5].
    assert (dep ∈ keys g ++ targets g) as Hkd by (apply Hknown; by left).
    pose proof (R3 dep Hkd) as Hdeg.
    rewrite decide_True in Hdeg by by left.
    cbn [relax].
    rewrite (getInDegree_Some _ _ _ Hdeg), outcome_bind_Done.
    rewrite getInDegree_set, outcome_bind_Done.
    set (n := remaining g sorted dep) in *.
    replace (Z.of_nat (n + 1) - 1) with (Z.of_nat n) by lia.
    apply IH; [done|done|by intros x Hx; apply Hknown; right|].
    assert (dep ∉ sorted ++ queue) as Hfresh by (apply R5; by left).
    split; simpl.
    + case_decide; [|done].
      rewrite app_assoc. apply NoDup_app. split_and!; [done| |apply NoDup_singleton].
      by intros x Hx ->%list_elem_of_singleton.
    + intros x Hx. case_decide; [|by apply R2].
      apply elem_of_app in Hx as [Hx| ->%list_elem_of_singleton]; auto.
    + intros x Hx. destruct (decide (x = dep)) as [->|Hne].
      * rewrite lookup_insert_eq, decide_False by done.
        do 2 f_equal. lia.
      * rewrite lookup_insert_ne by done. rewrite (R3 x Hx).
        do 3 f_equal. destruct (decide (x ∈ dep :: rest)) as [Hin|Hin],
          (decide (x ∈ rest)); try done; set_solver.
    + intros x Hx Hrest. destruct (decide (x = dep)) as [->|Hne].
      * fold n. case_decide as Hz.
        -- split; [intros _; set_solver | lia].
        -- split; [lia | done].
      * rewrite (R4 x Hx) by set_solver.
        case_decide; [|done]. set_solver.
    + intros x Hx. assert (x ∉ sorted ++ queue) by (apply R5; by right).
      case_decide; [|done]. set_solver.
Qed.

(** One iteration of the work-list loop preserves the invariant. *)
Lemma kahn_step st pkg queue sorted ds :
  wf_graph (graph st) →
  kahn_inv (graph st) (inDegree st) (pkg :: queue) sorted →
  graph_find (graph st) pkg = Some ds →
  ∃ st' queue', relax ds st queue = Done (st', queue')
                ∧ graph st' = graph st
                ∧ kahn_inv (graph st) (inDegree st') queue' (sorted ++ [pkg]).
Proof.
  intros [Hnd Hsets] [K1 K2 K3 K4 K5 K6] Hf.
  set (g := graph st) in *.
  assert (pkg ∉ sorted) as Hps.
  { apply NoDup_app in K1 as (_ & H & _). intros Hin.
    apply (H pkg Hin). by left. }
  assert (NoDup ds) as Hds.
  { rewrite Forall_forall in Hsets.
    apply (Hsets (pkg, ds)). by apply graph_find_Some_elem. }
  assert (∀ x, x ∈ ds → x ∈ keys g ++ targets g) as Hknown.
  { intros x Hx. apply elem_of_app. right.
    apply (edge_target _ pkg). by exists ds. }
  assert (pkg ∈ keys g ++ targets g) as Hkp by (apply K3; by left).
  assert (relax_inv g (inDegree st) queue (sorted ++ [pkg]) ds) as Hinit.
  { split.
    - by rewrite <- app_assoc.
    - intros x Hx. apply K3. by right.
    - intros x Hx. rewrite (K4 x Hx).
      by rewrite (remaining_pop g sorted pkg ds x Hnd Hf Hps).
    - intros x Hx Hnin.
      pose proof (remaining_pop g sorted pkg ds x Hnd Hf Hps) as Hpop.
      rewrite decide_False in Hpop by done.
      rewrite <- app_assoc. simpl. rewrite <- (K5 x Hx). lia.
    - intros x Hx.
      pose proof (remaining_pop g sorted pkg ds x Hnd Hf Hps) as Hpop.
      rewrite decide_True in Hpop by done.
      rewrite <- app_assoc. simpl. rewrite <- (K5 x (Hknown x Hx)). lia. }
  destruct (relax_spec g (sorted ++ [pkg]) ds st queue eq_refl Hds Hknown
              Hinit) as (st' & queue' & Hrun & Hg' & [R1 R2 R3 R4 R5]).
  exists st', queue'. split_and!; [done..|].
  split; [done| |done| | |].
  - intros x [Hx| ->%list_elem_of_singleton]%elem_of_app; [by apply K2|].
    apply graph_find_is_Some. eauto.
  - intros x Hx. rewrite (R3 x Hx), decide_False by apply not_elem_of_nil.
    do 2 f_equal. lia.
  - intros x Hx. apply R4; [done | apply not_elem_of_nil].
  - intros p x [Hx| ->%list_elem_of_singleton]%elem_of_app He.
    + apply before_snoc. by apply K6.
    + apply before_last.
      assert (remaining g sorted pkg = 0%nat) as Hz
        by (apply K5; [done | set_solver]).
      destruct He as (ds' & Hf' & Hin).
      eapply (proj1 (remaining_zero g sorted pkg) Hz p ds');
        [by apply graph_find_Some_elem | done].
Qed.

Lemma kahn_sorted_length g deg queue sorted :
  kahn_inv g deg queue sorted → (length sorted ≤ length g)%nat.
Proof.
  intros [K1 K2 _ _ _ _].
  apply NoDup_app in K1 as (Hnd & _ & _).
  rewrite <- (length_fmap fst g).
  apply submseteq_length, NoDup_submseteq; [done | exact K2].
Qed.

Lemma sort_loop_spec fuel :
  ∀ st queue sorted,
    wf_graph (graph st) →
    kahn_inv (graph st) (inDegree st) queue sorted →
    (length (graph st) ≤ fuel + length sorted)%nat →
    sort_post st (sort_loop fuel st queue sorted).
Proof.
  induction fuel as [|fuel IH]; intros st queue sorted Hwf Hinv Hfuel.
  all: destruct queue as [|pkg queue]; simpl; [done|].
  all: unfold getDependencies;
    destruct (graph_find (graph st) pkg) as [ds|] eqn:Hf; simpl.
  all: try (intros Hclosed;
    apply graph_find_None in Hf;
    pose proof (k_known _ _ _ _ Hinv pkg ltac:(by left)) as Hk;
    apply elem_of_app in Hk as [Hk|Hk]; [done|];
    unfold closed in Hclosed; rewrite Forall_forall in Hclosed;
    apply Hclosed, graph_find_is_Some in Hk; done).
  all: destruct (kahn_step st pkg queue sorted ds Hwf Hinv Hf)
    as (st' & queue' & Hrun & Hg & Hinv').
  - apply kahn_sorted_length in Hinv'. rewrite length_app in Hinv'.
    simpl in Hinv'. lia.
  - rewrite Hrun. simpl.
    rewrite <- Hg in Hinv', Hwf.
    specialize (IH st' queue' (sorted ++ [pkg]) Hwf Hinv').
    rewrite length_app, Hg in IH. simpl in IH.
    specialize (IH ltac:(lia)).
    unfold sort_post in *.
    destruct (sort_loop fuel st' queue' (sorted ++ [pkg])) as [[s2 st2]| |];
      [|by rewrite <- Hg|done].
    destruct IH as [Hg2 Hinv2]. rewrite <- Hg. split; congruence.
Qed.

Lemma seed_spec st :
  ∀ pkgs queue,
    (∀ p, p ∈ pkgs → inDegree st !! p
                     = Some (Z.of_nat (indegree_count (graph st) p))) →
    seed st pkgs queue
    = Done (queue ++ filter (fun p => indegree_count (graph st) p = 0%nat) pkgs).
Proof.
  induction pkgs as [|p rest IH]; intros queue Hdeg; simpl.
  - by rewrite app_nil_r.
  - unfold getInDegree. rewrite (Hdeg p) by by left. simpl.
    rewrite IH by (intros q Hq; apply Hdeg; by right).
    rewrite filter_cons. f_equal.
    destruct (decide (Z.of_nat (indegree_count (graph st) p) = 0)),
      (decide (indegree_count (graph st) p = 0%nat)); try lia.
    + by rewrite <- app_assoc.
    + done.
Qed.

Lemma kahn_init st :
  wf_graph (graph st) → fresh st →
  kahn_inv (graph st) (inDegree st)
    (filter (fun p => indegree_count (graph st) p = 0%nat) (keys (graph st)))
    [].
Proof.
  intros [Hnd _] Hfresh. unfold fresh in Hfresh.
  rewrite Forall_forall in Hfresh.
  split; simpl.
  - by apply NoDup_filter.
  - intros x Hx. inversion Hx.
  - intros x [_ Hx]%list_elem_of_filter. apply elem_of_app. by left.
  - intros x Hx. rewrite remaining_nil. by apply Hfresh.
  - intros x Hx. rewrite remaining_nil, list_elem_of_filter.
    split; [|by intros [? _]].
    intros Hz. split; [done|].
    apply elem_of_app in Hx as [Hx|Hx]; [done|].
    apply indegree_count_target in Hx. lia.
  - intros p x Hx. inversion Hx.
Qed.

(** The outcomes of [topologicalSort] on fresh in-degrees. *)
Lemma topologicalSort_spec st :
  wf_graph (graph st) → fresh st →
  match topologicalSort st with
  | Done r =>
      graph (graph_after r) = graph st
      ∧ kahn_inv (graph st) (inDegree (graph_after r)) [] (sortedPackages r)
  | NotFound => ¬ closed (graph st)
  | OutOfFuel => False
  end.
Proof.
  intros Hwf Hfresh. unfold topologicalSort.
  rewrite seed_spec.
  2:{ intros p Hp. unfold fresh in Hfresh. rewrite Forall_forall in Hfresh.
      apply Hfresh, elem_of_app. by left. }
  simpl.
  pose proof (sort_loop_spec (length (graph st)) st _ []
                Hwf (kahn_init st Hwf Hfresh) ltac:(simpl; lia)) as Hloop.
  unfold sort_post in Hloop.
  destruct (sort_loop _ _ _ _) as [[sorted st']| |]; simpl; done.
Qed.

(** ** What the final state of the sorter says about the graph *)

Lemma kahn_before_tc g deg sorted :
  kahn_inv g deg [] sorted →
  ∀ a b, tc (edge g) a b → b ∈ sorted → before sorted a b.
Proof.
  intros Hinv a b Htc.
  assert (NoDup sorted) as Hnd.
  { pose proof (k_nodup _ _ _ _ Hinv) as H. by rewrite app_nil_r in H. }
  induction Htc as [a b He|a b c He _ IH]; intros Hin.
  - by apply (k_order _ _ _ _ Hinv).
  - specialize (IH Hin).
    assert (b ∈ sorted) as Hb.
    { destruct IH as (i & _ & Hi & _). apply list_elem_of_lookup. eauto. }
    eapply before_trans; [done | by apply (k_order _ _ _ _ Hinv) | done].
Qed.

Lemma kahn_full_keys g deg sorted :
  NoDup (keys g) → kahn_inv g deg [] sorted →
  length sorted = length g → ∀ x, x ∈ keys g → x ∈ sorted.
Proof.
  intros Hnd Hinv Hlen x Hx.
  assert (NoDup sorted) as Hnds.
  { pose proof (k_nodup _ _ _ _ Hinv) as H. by rewrite app_nil_r in H. }
  assert (sorted ≡ₚ keys g) as Hperm.
  { apply submseteq_length_Permutation.
    - apply NoDup_submseteq; [done | apply (k_keys _ _ _ _ Hinv)].
    - unfold keys. rewrite length_fmap. lia. }
  by rewrite Hperm.
Qed.

(** If every key has been output, no target is missing and no cycle
    exists. *)
Lemma kahn_full_closed_acyclic g deg sorted :
  NoDup (keys g) → kahn_inv g deg [] sorted →
  (∀ x, x ∈ keys g → x ∈ sorted) → closed g ∧ acyclic g.
Proof.
  intros Hnd Hinv Hall.
  assert (NoDup sorted) as Hnds.
  { pose proof (k_nodup _ _ _ _ Hinv) as H. by rewrite app_nil_r in H. }
  split.
  - unfold closed. apply Forall_forall. intros d Hd.
    apply graph_find_is_Some, (k_keys _ _ _ _ Hinv).
    assert (d ∈ keys g ++ targets g) as Hk by (apply elem_of_app; by right).
    pose proof (proj1 (k_zero _ _ _ _ Hinv d Hk)) as Hz.
    rewrite app_nil_r in Hz. apply Hz, remaining_zero.
    intros p ds Hin _. apply Hall.
    by apply (list_elem_of_fmap_2 fst _ (p, ds)).
  - intros p Hcyc.
    apply (before_irrefl sorted p Hnds).
    eapply kahn_before_tc; [done..|].
    apply Hall. by eapply tc_edge_source.
Qed.

Lemma tc_flip_edge g x y : tc (flip (edge g)) x y → tc (edge g) y x.
Proof.
  induction 1 as [x y H|x y z H _ IH]; [by apply tc_once|].
  eapply tc_r; [exact IH | exact H].
Qed.

(** On an acyclic graph the dependents of a package can be exhausted:
    the edge relation read backwards is strongly normalising. *)
Lemma acyclic_sn g x : acyclic g → sn (flip (edge g)) x.
Proof.
  intros Hac. apply tc_finite_sn.
  - intros y Hy. apply (Hac y). by apply tc_flip_edge.
  - exists (keys g). intros y Hy.
    apply tc_flip_edge in Hy. by eapply tc_edge_source.
Qed.

(** On an acyclic graph the sorter, if it finishes, has output every
    key and every target. *)
Lemma kahn_acyclic_all g deg sorted :
  NoDup (keys g) → kahn_inv g deg [] sorted → acyclic g →
  ∀ x, x ∈ keys g ++ targets g → x ∈ sorted.
Proof.
  intros Hnd Hinv Hac x.
  induction (acyclic_sn g x Hac) as [x _ IH]. intros Hx.
  pose proof (proj1 (k_zero _ _ _ _ Hinv x Hx)) as Hz.
  rewrite app_nil_r in Hz. apply Hz, remaining_zero.
  intros p ds Hin Hxd.
  apply IH.
  - exists ds. split; [by apply graph_find_elem | done].
  - apply elem_of_app. left. by apply (list_elem_of_fmap_2 fst _ (p, ds)).
Qed.

Lemma kahn_acyclic_length g deg sorted :
  NoDup (keys g) → kahn_inv g deg [] sorted → acyclic g →
  length sorted = length g.
Proof.
  intros Hnd Hinv Hac.
  assert (NoDup sorted) as Hnds.
  { pose proof (k_nodup _ _ _ _ Hinv) as H. by rewrite app_nil_r in H. }
  rewrite <- (length_fmap fst g). apply Permutation_length.
  apply NoDup_Permutation; [done..|]. intros x. split.
  - apply (k_keys _ _ _ _ Hinv).
  - intros Hx. eapply kahn_acyclic_all; [done..|]. apply elem_of_app. by left.
Qed.

(** ** The fuel of the sorter suffices for arbitrary counters *)

Lemma relax_queue_inv sorted :
  ∀ ds st queue,
    queue_inv (inDegree st) queue sorted →
    match relax ds st queue with
    | Done r => graph r.1 = graph st ∧ queue_inv (inDegree r.1) r.2 sorted
    | NotFound => True
    | OutOfFuel => False
    end.
Proof.
  induction ds as [|dep rest IH]; intros st queue [Hnd Hnp]; [done|].
  cbn [relax]. destruct (inDegree st !! dep) as [z|] eqn:Hz.
  2:{ by rewrite (getInDegree_None _ _ Hz). }
  rewrite (getInDegree_Some _ _ _ Hz), outcome_bind_Done.
  rewrite getInDegree_set, outcome_bind_Done.
  set (st' := setInDegree st dep (z - 1)).
  assert (∀ x, nonpos (inDegree st) x → nonpos (inDegree st') x) as Hstep.
  { intros x (zx & Hx & Hlx). unfold st', setInDegree, nonpos. simpl.
    destruct (decide (x = dep)) as [->|Hne].
    - exists (z - 1). rewrite lookup_insert_eq. split; [done|].
      simplify_eq. lia.
    - exists zx. by rewrite lookup_insert_ne. }
  assert (queue_inv (inDegree st')
            (if decide (z - 1 = 0) then queue ++ [dep] else queue) sorted)
    as Hinv'.
  { case_decide as Hzero; [|split; [done | by auto]].
    assert (dep ∉ sorted ++ queue) as Hdep.
    { intros (zd & Hzd & Hle)%Hnp. simplify_eq. lia. }
    unfold queue_inv. rewrite app_assoc. split.
    - apply NoDup_app. split_and!; [done| |apply NoDup_singleton].
      by intros x Hx ->%list_elem_of_singleton.
    - intros x [Hx| ->%list_elem_of_singleton]%elem_of_app; [by auto|].
      exists (z - 1). unfold st'. simpl. rewrite lookup_insert_eq.
      split; [done | lia]. }
  specialize (IH st' _ Hinv').
  by destruct (relax rest st' _) as [[st2 q2]| |].
Qed.

Lemma sort_loop_fuel fuel :
  ∀ st queue sorted,
    queue_inv (inDegree st) queue sorted →
    (∀ x, x ∈ sorted → x ∈ keys (graph st)) →
    (length (graph st) ≤ fuel + length sorted)%nat →
    sort_loop fuel st queue sorted ≠ OutOfFuel.
Proof.
  induction fuel as [|fuel IH]; intros st queue sorted Hinv Hkeys Hfuel.
  all: destruct queue as [|pkg queue]; [done|]; cbn [sort_loop].
  all: unfold getDependencies;
    destruct (graph_find (graph st) pkg) as [ds|] eqn:Hf; [|done];
    rewrite outcome_bind_Done.
  all: assert (queue_inv (inDegree st) queue (sorted ++ [pkg])) as Hinv'
    by (destruct Hinv; split; by rewrite <- app_assoc).
  all: assert (∀ x, x ∈ sorted ++ [pkg] → x ∈ keys (graph st)) as Hkeys'
    by (intros x [Hx| ->%list_elem_of_singleton]%elem_of_app;
        [by auto | apply graph_find_is_Some; eauto]).
  - exfalso. destruct Hinv' as [Hnd _].
    apply NoDup_app in Hnd as (Hnd & _ & _).
    pose proof (submseteq_length _ _ (NoDup_submseteq _ _ Hnd Hkeys')) as Hle.
    unfold keys in Hle. rewrite length_app, length_fmap in Hle.
    simpl in Hle. lia.
  - pose proof (relax_queue_inv (sorted ++ [pkg]) ds st queue Hinv') as Hr.
    destruct (relax ds st queue) as [[st' queue']| |]; [|done..].
    rewrite outcome_bind_Done. simpl in *. destruct Hr as [Hg Hinv''].
    apply IH; [done|by rewrite Hg|].
    rewrite Hg, length_app. simpl. lia.
Qed.

Lemma seed_outcome st :
  ∀ pkgs queue,
    seed st pkgs queue = NotFound
    ∨ seed st pkgs queue
      = Done (queue ++ filter (fun p => inDegree st !! p = Some 0) pkgs).
Proof.
  induction pkgs as [|p rest IH]; intros queue; cbn [seed].
  - right. by rewrite app_nil_r.
  - destruct (inDegree st !! p) as [z|] eqn:Hz.
    2:{ left. by rewrite (getInDegree_None _ _ Hz). }
    rewrite (getInDegree_Some _ _ _ Hz), outcome_bind_Done, filter_cons.
    destruct (IH (if decide (z = 0) then queue ++ [p] else queue))
      as [->| ->]; [by left|right].
    f_equal. rewrite Hz.
    destruct (decide (z = 0)) as [->|Hne].
    + rewrite decide_True by done. by rewrite <- app_assoc.
    + rewrite decide_False; [done|]. by intros [=].
Qed.

(** [topologicalSort] returns or throws on every graph, whatever its
    counters are: the loop runs at most once per key. *)
Lemma topologicalSort_fuel st :
  NoDup (keys (graph st)) → topologicalSort st ≠ OutOfFuel.
Proof.
  intros Hnd. unfold topologicalSort.
  destruct (seed_outcome st (graph st).*1 []) as [->| ->]; [done|].
  rewrite outcome_bind_Done. simpl.
  match goal with |- context [sort_loop ?f st ?q []] =>
    pose proof (sort_loop_fuel f st q []) as Hloop end.
  destruct (sort_loop _ _ _ _) as [r| |]; [done..|].
  exfalso. apply Hloop; [|by intros x Hx; inversion Hx|simpl; lia|done].
  split; simpl.
  - by apply NoDup_filter.
  - intros x [Hx _]%list_elem_of_filter. by exists 0.
Qed.

Lemma detectCycle_fuel st : detectCycle st ≠ OutOfFuel.
Proof.
  pose proof (detectCycle_outcome st) as H. intros Heq. by rewrite Heq in H.
Qed.

(** ** Exhibiting acyclic and cyclic graphs *)

Lemma acyclic_by_rank g (rank : Package → nat) :
  Forall (fun pr => Forall (fun d => (rank pr.1 < rank d)%nat) pr.2) g →
  acyclic g.
Proof.
  intros Hrank.
  assert (∀ a b, tc (edge g) a b → (rank a < rank b)%nat) as Hlt.
  { assert (∀ a b, edge g a b → (rank a < rank b)%nat) as Hedge.
    { intros a b (ds & Hf%graph_find_Some_elem & Hb).
      rewrite Forall_forall in Hrank. specialize (Hrank _ Hf).
      rewrite Forall_forall in Hrank. by apply Hrank. }
    induction 1 as [a b He|a b c He _ IH].
    - by apply Hedge.
    - etrans; [by apply Hedge | done]. }
  intros p Hp%Hlt. lia.
Qed.

Lemma main_graph_acyclic : acyclic (graph main_graph).
Proof.
  apply (acyclic_by_rank _ (rank_in [pkgA; pkgB; pkgC; pkgD])).
  compute_done.
Qed.

Lemma cyclic_graph_cyclic : cyclic (graph cyclic_graph).
Proof.
  exists pkgA.
  apply (tc_l _ _ pkgB); [by exists [pkgB; pkgD]; compute_done|].
  apply (tc_l _ _ pkgC); [by exists [pkgC]; compute_done|].
  apply tc_once. by exists [pkgA]; compute_done.
Qed.

(** ** A second run of the sorter *)

Lemma relax_nonpos :
  ∀ ds st queue,
    (∀ x, x ∈ ds → nonpos (inDegree st) x) →
    ∃ st', relax ds st queue = Done (st', queue)
           ∧ graph st' = graph st
           ∧ ∀ x, nonpos (inDegree st) x → nonpos (inDegree st') x.
Proof.
  induction ds as [|dep rest IH]; intros st queue Hds.
  - by exists st.
  - destruct (Hds dep ltac:(by left)) as (z & Hz & Hle).
    cbn [relax].
    rewrite (getInDegree_Some _ _ _ Hz), outcome_bind_Done.
    rewrite getInDegree_set, outcome_bind_Done.
    rewrite decide_False by lia.
    assert (∀ x, nonpos (inDegree st) x →
                 nonpos (inDegree (setInDegree st dep (z - 1))) x) as Hstep.
    { intros x (zx & Hx & Hlx). unfold setInDegree, nonpos. simpl.
      destruct (decide (x = dep)) as [->|Hne].
      - exists (z - 1). rewrite lookup_insert_eq. split; [done | lia].
      - exists zx. by rewrite lookup_insert_ne. }
    destruct (IH (setInDegree st dep (z - 1)) queue) as (st' & Hrun & Hg & Hnp).
    { intros x Hx. apply Hstep, Hds. by right. }
    exists st'. split_and!; [done..|]. intros x Hx. by apply Hnp, Hstep.
Qed.

Lemma sort_loop_nonpos :
  ∀ queue fuel st sorted,
    closed (graph st) →
    (∀ x, x ∈ keys (graph st) → nonpos (inDegree st) x) →
    (∀ x, x ∈ queue → x ∈ keys (graph st)) →
    (length queue ≤ fuel)%nat →
    ∃ st', sort_loop fuel st queue sorted = Done (sorted ++ queue, st')
           ∧ graph st' = graph st.
Proof.
  induction queue as [|pkg queue IH]; intros fuel st sorted Hcl Hnp Hq Hfuel.
  - exists st. destruct fuel; simpl; by rewrite app_nil_r.
  - destruct fuel as [|fuel]; [simpl in Hfuel; lia|].
    assert (pkg ∈ keys (graph st)) as Hk by (apply Hq; by left).
    apply graph_find_is_Some in Hk as [ds Hf].
    cbn [sort_loop]. unfold getDependencies. rewrite Hf, outcome_bind_Done.
    destruct (relax_nonpos ds st queue) as (st' & Hrun & Hg & Hnp').
    { intros x Hx. apply Hnp, graph_find_is_Some.
      apply (closed_edge _ pkg); [done | by exists ds]. }
    rewrite Hrun, outcome_bind_Done. simpl.
    destruct (IH fuel st' (sorted ++ [pkg])) as (st'' & Hrun' & Hg').
    + by rewrite Hg.
    + rewrite Hg. intros x Hx. by apply Hnp', Hnp.
    + rewrite Hg. intros x Hx. apply Hq. by right.
    + simpl in Hfuel. lia.
    + exists st''. rewrite Hrun', <- app_assoc. split; [done | congruence].
Qed.

Lemma filter_ext_elem {A} (P Q : A → Prop) `{!∀ x, Decision (P x)}
    `{!∀ x, Decision (Q x)} (l : list A) :
  (∀ x, x ∈ l → P x ↔ Q x) → filter P l = filter Q l.
Proof.
  induction l as [|a l IH]; intros Hext; [done|].
  rewrite !filter_cons, IH by (intros x Hx; apply Hext; by right).
  destruct (decide (P a)) as [Hp|Hp], (decide (Q a)) as [Hq|Hq]; try done.
  - destruct Hq. apply Hext; [by left | done].
  - destruct Hp. apply Hext; [by left | done].
Qed.

Lemma seed_Done st :
  ∀ pkgs queue,
    (∀ p, p ∈ pkgs → is_Some (inDegree st !! p)) →
    seed st pkgs queue
    = Done (queue ++ filter (fun p => inDegree st !! p = Some 0) pkgs).
Proof.
  intros pkgs queue Hsome.
  destruct (seed_outcome st pkgs queue) as [Hnf|]; [exfalso|done].
  revert queue Hnf. induction pkgs as [|p rest IH]; intros queue; [done|].
  cbn [seed]. destruct (Hsome p) as [z Hz]; [by left|].
  rewrite (getInDegree_Some _ _ _ Hz), outcome_bind_Done.
  apply IH. intros q Hq. apply Hsome. by right.
Qed.

(** The queue is first-in first-out: the inner loop only appends to it,
    and the outer loop outputs what is queued before anything queued
    later. *)
Lemma relax_extends :
  ∀ ds st queue st' queue',
    relax ds st queue = Done (st', queue') → ∃ more, queue' = queue ++ more.
Proof.
  induction ds as [|dep rest IH]; intros st queue st' queue'; cbn [relax].
  - intros [= _ <-]. exists []. by rewrite app_nil_r.
  - destruct (inDegree st !! dep) as [z|] eqn:Hz;
      [|by rewrite (getInDegree_None _ _ Hz)].
    rewrite (getInDegree_Some _ _ _ Hz), outcome_bind_Done.
    rewrite getInDegree_set, outcome_bind_Done.
    intros (more & ->)%IH. case_decide; [|by eauto].
    exists (dep :: more). by rewrite <- app_assoc.
Qed.

Lemma sort_loop_prefix fuel :
  ∀ st queue sorted sorted' st',
    sort_loop fuel st queue sorted = Done (sorted', st') →
    ∃ more, sorted' = sorted ++ queue ++ more.
Proof.
  induction fuel as [|fuel IH]; intros st queue sorted sorted' st'.
  all: destruct queue as [|pkg queue]; cbn [sort_loop];
    [intros [= <- _]; exists []; by rewrite app_nil_r|].
  all: unfold getDependencies;
    destruct (graph_find (graph st) pkg) as [ds|]; [|done];
    rewrite outcome_bind_Done; try done.
  destruct (relax ds st queue) as [[st1 queue1]| |] eqn:Hrelax; [|done..].
  rewrite outcome_bind_Done. simpl.
  apply relax_extends in Hrelax as [more1 ->].
  intros (more & ->)%IH. exists (more1 ++ more).
  by rewrite <- !app_assoc.
Qed.

(** With every target registered and a counter stored for every key,
    neither lookup of the sorter can throw. *)
Lemma relax_closed :
  ∀ ds st queue,
    (∀ x, x ∈ ds → is_Some (inDegree st !! x)) →
    ∃ st' queue',
      relax ds st queue = Done (st', queue')
      ∧ graph st' = graph st
      ∧ (∀ x, is_Some (inDegree st !! x) → is_Some (inDegree st' !! x))
      ∧ (∀ x, x ∈ queue' → x ∈ queue ∨ x ∈ ds).
Proof.
  induction ds as [|dep rest IH]; intros st queue Hsome.
  - exists st, queue. split_and!; [done..|by left].
  - destruct (Hsome dep) as [z Hz]; [by left|]. cbn [relax].
    rewrite (getInDegree_Some _ _ _ Hz), outcome_bind_Done.
    rewrite getInDegree_set, outcome_bind_Done.
    set (st1 := setInDegree st dep (z - 1)).
    assert (∀ x, is_Some (inDegree st !! x) → is_Some (inDegree st1 !! x))
      as Hstep.
    { intros x Hx. unfold st1, setInDegree. simpl.
      destruct (decide (x = dep)) as [->|Hne].
      - rewrite lookup_insert_eq. eauto.
      - by rewrite lookup_insert_ne. }
    edestruct (IH st1) as (st' & queue' & Hrun & Hg & Hdom & Hq).
    { intros x Hx. apply Hstep, Hsome. by right. }
    exists st', queue'. split_and!; [exact Hrun|done|by auto|].
    intros x [Hx|Hx]%Hq; [|right; by right].
    case_decide; [|by left].
    apply elem_of_app in Hx as [Hx| ->%list_elem_of_singleton];
      [by left | right; by left].
Qed.

Lemma sort_loop_closed fuel :
  ∀ st queue sorted,
    closed (graph st) →
    (∀ x, x ∈ keys (graph st) → is_Some (inDegree st !! x)) →
    (∀ x, x ∈ queue → x ∈ keys (graph st)) →
    sort_loop fuel st queue sorted ≠ NotFound.
Proof.
  induction fuel as [|fuel IH]; intros st queue sorted Hcl Hdom Hq.
  all: destruct queue as [|pkg queue]; [done|]; cbn [sort_loop].
  all: destruct (proj2 (graph_find_is_Some (graph st) pkg)) as [ds Hf];
    [apply Hq; by left|].
  all: unfold getDependencies; rewrite Hf, outcome_bind_Done; try done.
  assert (∀ x, x ∈ ds → x ∈ keys (graph st)) as Hds.
  { intros x Hx. apply graph_find_is_Some.
    apply (closed_edge _ pkg); [done | by exists ds]. }
  destruct (relax_closed ds st queue) as (st' & queue' & -> & Hg & Hdom' & Hq');
    [by auto|].
  rewrite outcome_bind_Done. simpl. apply IH.
  - by rewrite Hg.
  - rewrite Hg. by auto.
  - rewrite Hg. intros x [Hx|Hx]%Hq'; [apply Hq; by right | by auto].
Qed.

(** ** Registering dependencies *)

Lemma adj_insert_find g p d :
  ∃ ds, graph_find (adj_insert g p d) p = Some ds ∧ d ∈ ds.
Proof.
  assert (∀ ds, d ∈ set_insert ds d) as Hin.
  { intros ds. unfold set_insert. case_decide; set_solver. }
  induction g as [|[q qs] g IH]; simpl.
  - rewrite decide_True by done. eauto.
  - destruct (decide (q = p)) as [->|Hne]; simpl.
    + rewrite decide_True by done. eauto.
    + by rewrite decide_False.
Qed.

Lemma adj_insert_find_ne g p d x :
  x ≠ p → graph_find (adj_insert g p d) x = graph_find g x.
Proof.
  intros Hne. induction g as [|[q qs] g IH]; simpl.
  - by rewrite decide_False.
  - destruct (decide (q = p)) as [->|Hqp]; simpl.
    + by rewrite !decide_False.
    + by rewrite IH.
Qed.

(** ** Analyses that only scan the adjacency map *)

Lemma edge_entry g p d :
  NoDup (keys g) → edge g p d ↔ ∃ ds, (p, ds) ∈ g ∧ d ∈ ds.
Proof.
  intros Hnd. split; intros (ds & H & Hd); exists ds; split; try done.
  - by apply graph_find_Some_elem.
  - by apply graph_find_elem.
Qed.

Lemma elem_of_edge_list g p d :
  (p, d) ∈ edge_list g ↔ ∃ ds, (p, ds) ∈ g ∧ d ∈ ds.
Proof.
  unfold edge_list. rewrite list_elem_of_bind. split.
  - intros ([q qs] & (y & [= -> ->] & Hy)%list_elem_of_fmap & Hin).
    by exists qs.
  - intros (ds & Hin & Hd). exists (p, ds). split; [|done].
    apply list_elem_of_fmap. by exists d.
Qed.

Lemma elem_of_impactDependents st t p :
  p ∈ impactDependents st t ↔ ∃ ds, (p, ds) ∈ graph st ∧ t ∈ ds.
Proof.
  unfold impactDependents. rewrite list_elem_of_fmap. split.
  - intros ([q qs] & -> & [Ht Hin]%list_elem_of_filter). by exists qs.
  - intros (ds & Hin & Ht). exists (p, ds). split; [done|].
    by apply list_elem_of_filter.
Qed.

Lemma conflict_deps_spec pkg ds :
  match conflict_deps pkg ds with
  | Some line =>
      ∃ l1 d l2, ds = l1 ++ d :: l2
                 ∧ (∀ x, x ∈ l1 → version pkg = version x)
                 ∧ version pkg ≠ version d
                 ∧ line = conflict_line pkg d
  | None => ∀ x, x ∈ ds → version pkg = version x
  end.
Proof.
  induction ds as [|dep rest IH]; simpl.
  - intros x Hx. inversion Hx.
  - unfold resolveVersion. case_bool_decide as Hv; simpl.
    + destruct (conflict_deps pkg rest) as [line|].
      * destruct IH as (l1 & d & l2 & -> & Hl1 & Hd & ->).
        exists (dep :: l1), d, l2. split_and!; [done| |done..].
        intros x [->|Hx]%elem_of_cons; auto.
      * intros x [->|Hx]%elem_of_cons; auto.
    + exists [], dep, rest. split_and!; [done| |done..].
      intros x Hx. inversion Hx.
Qed.

Lemma conflict_pairs_spec g :
  match conflict_pairs g with
  | (true, out) =>
      ∃ l1 p d l2, edge_list g = l1 ++ (p, d) :: l2
                   ∧ (∀ e, e ∈ l1 → version e.1 = version e.2)
                   ∧ version p ≠ version d
                   ∧ out = [conflict_line p d]
  | (false, out) =>
      out = [] ∧ ∀ e, e ∈ edge_list g → version e.1 = version e.2
  end.
Proof.
  induction g as [|[pkg ds] g IH].
  - simpl. split; [done|]. intros e He. inversion He.
  - cbn [conflict_pairs].
    change (edge_list ((pkg, ds) :: g))
      with ((pair pkg <$> ds) ++ edge_list g).
    pose proof (conflict_deps_spec pkg ds) as Hds.
    destruct (conflict_deps pkg ds) as [line|].
    + destruct Hds as (l1 & d & l2 & -> & Hl1 & Hd & ->).
      exists (pair pkg <$> l1), pkg, d, ((pair pkg <$> l2) ++ edge_list g).
      split_and!; [|  |done..].
      * by rewrite fmap_app, fmap_cons, <- app_assoc.
      * intros e (x & -> & Hx)%list_elem_of_fmap. by apply Hl1.
    + assert (∀ e, e ∈ pair pkg <$> ds → version e.1 = version e.2) as Hhd.
      { intros e (x & -> & Hx)%list_elem_of_fmap. by apply Hds. }
      destruct (conflict_pairs g) as [[] out].
      * destruct IH as (l1 & p & d & l2 & -> & Hl1 & Hd & ->).
        exists ((pair pkg <$> ds) ++ l1), p, d, l2.
        split_and!; [by rewrite <- app_assoc| |done..].
        intros e [He|He]%elem_of_app; auto.
      * destruct IH as [-> Hall]. split; [done|].
        intros e [He|He]%elem_of_app; auto.
Qed.

Lemma conflict_pairs_skip g1 g2 x :
  conflict_pairs (g1 ++ (x, []) :: g2) = conflict_pairs (g1 ++ g2).
Proof.
  induction g1 as [|[p ds] g1 IH]; simpl; [done|].
  by rewrite IH.
Qed.

Lemma detectConflict_true_iff st :
  (detectConflict st).1 = true
  ↔ ∃ p ds d, (p, ds) ∈ graph st ∧ d ∈ ds ∧ version p ≠ version d.
Proof.
  unfold detectConflict.
  pose proof (conflict_pairs_spec (graph st)) as Hspec.
  destruct (conflict_pairs (graph st)) as [[] out]; simpl.
  - split; [intros _|done].
    destruct Hspec as (l1 & p & d & l2 & Hl & _ & Hne & _).
    assert ((p, d) ∈ edge_list (graph st)) as Hin by (rewrite Hl; set_solver).
    apply elem_of_edge_list in Hin as (ds & Hin & Hd). by exists p, ds, d.
  - split; [done|]. intros (p & ds & d & Hin & Hd & Hne).
    destruct Hspec as [_ Hall]. destruct Hne.
    apply (Hall (p, d)), elem_of_edge_list. by exists ds.
Qed.

(** ** Dependency targets without an adjacency entry *)

Lemma orphan_not_closed g x :
  x ∈ targets g → graph_find g x = None → ¬ closed g.
Proof.
  intros Hx Hf Hcl. unfold closed in Hcl. rewrite Forall_forall in Hcl.
  destruct (Hcl x Hx) as [ds Hds]. congruence.
Qed.

Lemma detectCycle_not_closed st :
  NoDup (keys (graph st)) → ¬ closed (graph st) →
  detectCycle st = NotFound ∨ detectCycle st = Done true.
Proof.
  intros Hnd Hncl. pose proof (detectCycle_spec st Hnd) as Hspec.
  destruct (detectCycle st) as [[]| |]; [by right| |by left|done].
  by destruct Hspec.
Qed.

Lemma topologicalSort_not_closed st :
  wf_graph (graph st) → fresh st → ¬ closed (graph st) →
  topologicalSort st = NotFound
  ∨ ∃ r, topologicalSort st = Done r
         ∧ (length (sortedPackages r) < length (graph st))%nat.
Proof.
  intros Hwf Hfresh Hncl.
  pose proof (topologicalSort_spec st Hwf Hfresh) as Hspec.
  destruct (topologicalSort st) as [r| |]; [|by left|done].
  right. exists r. split; [done|]. destruct Hspec as [_ Hinv].
  pose proof (kahn_sorted_length _ _ _ _ Hinv) as Hle.
  destruct (decide (length (sortedPackages r) = length (graph st)))
    as [Heq|]; [|lia].
  destruct Hwf as [Hnd _].
  destruct (kahn_full_closed_acyclic _ _ _ Hnd Hinv) as [Hcl _]; [|done].
  by eapply kahn_full_keys.
Qed.

(** * The claims *)

(** C1. For every graph whose dependency targets are all registered,
    [detectCycle] returns false if the graph is acyclic and returns true if
    the graph contains a directed cycle (and so it neither throws nor runs
    out of fuel). *)
Theorem detectCycle_correct st :
  closed (graph st) →
  (acyclic (graph st) → detectCycle st = Done false)
  ∧ (cyclic (graph st) → detectCycle st = Done true).
Proof.
  intros Hclosed. pose proof (detectCycle_outcome st) as Hout.
  destruct (detectCycle st) as [[]| |]; [| |done..].
  - split; [|done]. intros Hac. destruct Hout as [p Hp]. by destruct (Hac p).
  - split; [done|]. intros [p Hcyc]. destruct Hout as [Hac _].
    by destruct (Hac p).
Qed.

Lemma detectCycle_correct_witness :
  (closed (graph main_graph) ∧ acyclic (graph main_graph)
   ∧ detectCycle main_graph = Done false)
  ∧ (closed (graph cyclic_graph) ∧ cyclic (graph cyclic_graph)
     ∧ detectCycle cyclic_graph = Done true).
Proof.
  assert (closed (graph main_graph)) as Hc1 by compute_done.
  assert (closed (graph cyclic_graph)) as Hc2 by compute_done.
  split.
  - split; [exact Hc1|]. split; [exact main_graph_acyclic|].
    apply (detectCycle_correct main_graph Hc1), main_graph_acyclic.
  - split; [exact Hc2|]. split; [exact cyclic_graph_cyclic|].
    apply (detectCycle_correct cyclic_graph Hc2), cyclic_graph_cyclic.
Defined.

(** C2. On every acyclic graph with freshly computed in-degrees the
    sequence produced by [topologicalSort] follows one direction for all
    edges: for every edge (p -> d) the dependent [p] is output before its
    dependency [d], and the sequence starts at a package without
    dependents.  The sequence is produced whenever all targets are
    registered. *)
Theorem topologicalSort_order st :
  wf_graph (graph st) → fresh st → acyclic (graph st) →
  (closed (graph st) → ∃ r, topologicalSort st = Done r)
  ∧ (∀ r, topologicalSort st = Done r →
       length (sortedPackages r) = length (graph st)
       ∧ (∀ p d, edge (graph st) p d → before (sortedPackages r) p d)
       ∧ (∀ x, sortedPackages r !! 0%nat = Some x →
               indegree_count (graph st) x = 0%nat)).
Proof.
  intros Hwf Hfresh Hac.
  pose proof (topologicalSort_spec st Hwf Hfresh) as Hspec.
  destruct (topologicalSort st) as [r0| |]; [|split; [done|intros ? [=]]|done].
  split; [by eauto|]. intros r [= <-]. destruct Hspec as [_ Hinv].
  destruct Hwf as [Hnd _].
  assert (NoDup (sortedPackages r0)) as Hnds.
  { pose proof (k_nodup _ _ _ _ Hinv) as H. by rewrite app_nil_r in H. }
  split_and!.
  - by eapply kahn_acyclic_length.
  - intros p d He. apply (k_order _ _ _ _ Hinv); [|done].
    eapply kahn_acyclic_all; [done..|].
    apply elem_of_app. right. by eapply edge_target.
  - intros x Hx. rewrite <- remaining_nil. apply remaining_zero.
    intros p ds Hin Hxd. exfalso.
    assert (before (sortedPackages r0) p x) as (i & j & _ & Hj & Hlt).
    { apply (k_order _ _ _ _ Hinv).
      - apply list_elem_of_lookup. eauto.
      - exists ds. split; [by apply graph_find_elem | done]. }
    assert (j = 0%nat) by by eapply NoDup_lookup. lia.
Qed.

Lemma topologicalSort_order_witness :
  wf_graph (graph main_graph) ∧ fresh main_graph
  ∧ acyclic (graph main_graph) ∧ closed (graph main_graph)
  ∧ ∃ r, topologicalSort main_graph = Done r
         ∧ sortedPackages r = [pkgA; pkgB; pkgD; pkgC]
         ∧ ∀ p d, edge (graph main_graph) p d → before (sortedPackages r) p d.
Proof.
  assert (wf_graph (graph main_graph)) as Hwf by compute_done.
  assert (fresh main_graph) as Hfresh by compute_done.
  assert (closed (graph main_graph)) as Hcl by compute_done.
  split_and!; [done | done | exact main_graph_acyclic | done |].
  destruct (topologicalSort_order main_graph Hwf Hfresh main_graph_acyclic)
    as [Hrun Hord].
  destruct (Hrun Hcl) as [r Hr].
  exists r. split_and!; [done| |by apply Hord].
  revert Hr. vm_compute. by intros [= <-].
Defined.

(** C3. The two cycle signals agree on every graph with freshly computed
    in-degrees: [detectCycle] returns false exactly when [topologicalSort]
    outputs as many packages as the graph has; when [detectCycle] returns
    true the sorter's sequence is strictly shorter; and both analyses
    return whenever all targets are registered. *)
Theorem cycle_signals_agree st :
  wf_graph (graph st) → fresh st →
  (detectCycle st = Done false
   ↔ ∃ r, topologicalSort st = Done r
          ∧ length (sortedPackages r) = length (graph st))
  ∧ (detectCycle st = Done true →
     ∀ r, topologicalSort st = Done r →
          (length (sortedPackages r) < length (graph st))%nat)
  ∧ (closed (graph st) →
     (∃ b, detectCycle st = Done b) ∧ ∃ r, topologicalSort st = Done r).
Proof.
  intros Hwf Hfresh.
  pose proof (topologicalSort_spec st Hwf Hfresh) as Hsort.
  destruct Hwf as [Hnd Hsets].
  pose proof (detectCycle_spec st Hnd) as Hdfs.
  split_and!.
  - split.
    + intros Hd. rewrite Hd in Hdfs. destruct Hdfs as [Hcl Hac].
      destruct (topologicalSort st) as [r| |]; [|done..].
      exists r. split; [done|]. destruct Hsort as [_ Hinv].
      by eapply kahn_acyclic_length.
    + intros (r & Hr & Hlen). rewrite Hr in Hsort.
      destruct Hsort as [_ Hinv].
      destruct (kahn_full_closed_acyclic _ _ _ Hnd Hinv) as [Hcl Hac].
      { by eapply kahn_full_keys. }
      destruct (detectCycle st) as [[]| |]; try done.
      destruct Hdfs as [p Hp]. by destruct (Hac p).
  - intros Hd r Hr. rewrite Hd in Hdfs. rewrite Hr in Hsort.
    destruct Hsort as [_ Hinv].
    pose proof (kahn_sorted_length _ _ _ _ Hinv) as Hle.
    destruct (decide (length (sortedPackages r) = length (graph st)))
      as [Heq|]; [|lia].
    destruct (kahn_full_closed_acyclic _ _ _ Hnd Hinv) as [_ Hac].
    { by eapply kahn_full_keys. }
    destruct Hdfs as [p Hp]. by destruct (Hac p).
  - intros Hcl. split.
    + destruct (detectCycle st) as [b| |]; [by eauto|done..].
    + destruct (topologicalSort st) as [r| |]; [by eauto|done..].
Qed.

Lemma cycle_signals_agree_witness :
  (wf_graph (graph main_graph) ∧ fresh main_graph
   ∧ detectCycle main_graph = Done false
   ∧ ∃ r, topologicalSort main_graph = Done r
          ∧ length (sortedPackages r) = length (graph main_graph))
  ∧ (wf_graph (graph cyclic_graph) ∧ fresh cyclic_graph
     ∧ closed (graph cyclic_graph)
     ∧ detectCycle cyclic_graph = Done true
     ∧ ∃ r, topologicalSort cyclic_graph = Done r
            ∧ (length (sortedPackages r) < length (graph cyclic_graph))%nat).
Proof.
  assert (wf_graph (graph main_graph)) as Hwf1 by compute_done.
  assert (fresh main_graph) as Hfresh1 by compute_done.
  assert (wf_graph (graph cyclic_graph)) as Hwf2 by compute_done.
  assert (fresh cyclic_graph) as Hfresh2 by compute_done.
  assert (closed (graph cyclic_graph)) as Hcl2 by compute_done.
  destruct (cycle_signals_agree main_graph Hwf1 Hfresh1) as (Hiff & _ & _).
  destruct (cycle_signals_agree cyclic_graph Hwf2 Hfresh2)
    as (_ & Hlt & Htot).
  assert (detectCycle main_graph = Done false) as Hd1 by compute_done.
  assert (detectCycle cyclic_graph = Done true) as Hd2 by compute_done.
  split.
  - split; [exact Hwf1|]. split; [exact Hfresh1|]. split; [exact Hd1|].
    apply Hiff, Hd1.
  - split; [exact Hwf2|]. split; [exact Hfresh2|]. split; [exact Hcl2|].
    split; [exact Hd2|].
    destruct (Htot Hcl2) as [_ [r Hr]].
    exists r. split; [exact Hr | exact (Hlt Hd2 r Hr)].
Defined.

(** C4.  The claim: after any sequence of [addPackage] and
    [addDependency] calls the stored in-degree of every package is the
    number of dependency sets containing it, and registering a package
    again does not reset its counter.  The code departs from it:
    registering B again after the edge A -> B resets B's counter to 0
    although one dependency set still contains B; adding the edge A -> B
    twice leaves B's counter at 2 although the set holds B once.  With the
    doubled counter the sorter reports a cycle on a graph that
    [detectCycle] finds acyclic. *)
Theorem inDegree_out_of_step :
  (getInDegree reregistered_graph pkgB = Done 0
   ∧ indegree_count (graph reregistered_graph) pkgB = 1%nat)
  ∧ (getInDegree duplicate_edge_graph pkgB = Done 2
     ∧ indegree_count (graph duplicate_edge_graph) pkgB = 1%nat
     ∧ detectCycle duplicate_edge_graph = Done false
     ∧ (r ← topologicalSort duplicate_edge_graph;
        mret (sortedPackages r, sort_printed r))
       = Done ([pkgA],
               ["Cycle detected! Topological sort is not possible."%string])).
Proof. split_and!; compute_done. Qed.

(** C5 (as stated, refuted).  On the graph built by [main] the second run
    of [topologicalSort], without recomputing in-degrees, outputs all four
    packages: the result is not empty.  The four counters are 0 after the
    first run, so this holds for every iteration order; the order shown is
    the one of [main_graph]. *)
Lemma second_sort_not_empty :
  ∃ r1 r2, topologicalSort main_graph = Done r1
           ∧ topologicalSort (graph_after r1) = Done r2
           ∧ sortedPackages r2 = [pkgA; pkgB; pkgC; pkgD]
           ∧ sortedPackages r2 ≠ [].
Proof.
  eexists _, _. split_and!.
  - vm_compute. reflexivity.
  - vm_compute. reflexivity.
  - reflexivity.
  - discriminate.
Qed.

(** C5 (amended).  After [topologicalSort] has run once on a graph with
    registered targets and fresh in-degrees, the counter of every package
    it output is left at zero, which is a change for each of them that has
    a dependent.  A second call without recomputing in-degrees is seeded
    with exactly those packages and outputs them first, in the iteration
    order of the adjacency map whatever the edges among them are; so the
    second result is empty only if the first was, and on an acyclic graph
    it is the whole key list in iteration order. *)
Theorem second_sort_iteration_order st :
  wf_graph (graph st) → fresh st → closed (graph st) →
  ∃ r1 r2 more,
    topologicalSort st = Done r1
    ∧ (∀ x, x ∈ sortedPackages r1 → getInDegree (graph_after r1) x = Done 0)
    ∧ (∀ x, x ∈ sortedPackages r1 → x ∈ targets (graph st) →
            getInDegree (graph_after r1) x ≠ getInDegree st x)
    ∧ topologicalSort (graph_after r1) = Done r2
    ∧ sortedPackages r2
      = filter (fun p => p ∈ sortedPackages r1) (keys (graph st)) ++ more
    ∧ (acyclic (graph st) → sortedPackages r2 = keys (graph st)).
Proof.
  intros Hwf Hfresh Hcl.
  pose proof (topologicalSort_spec st Hwf Hfresh) as Hspec.
  destruct (topologicalSort st) as [r1| |]; [|done..].
  destruct Hspec as [Hg Hinv]. destruct Hwf as [Hnd _].
  set (st1 := graph_after r1) in *. set (sorted1 := sortedPackages r1) in *.
  set (g := graph st) in *.
  assert (∀ x, x ∈ keys g ++ targets g →
               (inDegree st1 !! x = Some 0 ↔ x ∈ sorted1)) as Hzero.
  { intros x Hx. rewrite (k_deg _ _ _ _ Hinv x Hx).
    pose proof (k_zero _ _ _ _ Hinv x Hx) as Hz. rewrite app_nil_r in Hz.
    rewrite <- Hz. split; [intros [=]; lia | by intros ->]. }
  assert (∀ x, x ∈ sorted1 → x ∈ keys g ++ targets g) as Hknown.
  { intros x Hx. apply elem_of_app. left. by apply (k_keys _ _ _ _ Hinv). }
  assert (∀ x, x ∈ keys g → is_Some (inDegree st1 !! x)) as Hdom.
  { intros x Hx. rewrite (k_deg _ _ _ _ Hinv x); [by eauto|].
    apply elem_of_app. by left. }
  set (seeds := filter (fun p => p ∈ sorted1) (keys g)).
  assert (seed st1 (graph st1).*1 [] = Done seeds) as Hseed.
  { rewrite Hg. rewrite seed_Done by exact Hdom. simpl. f_equal.
    apply filter_ext_elem. intros x Hx. apply Hzero, elem_of_app. by left. }
  assert (∃ sorted2 st2 more,
            sort_loop (length (graph st1)) st1 seeds [] = Done (sorted2, st2)
            ∧ sorted2 = seeds ++ more) as (sorted2 & st2 & more & Hloop & Hs2).
  { destruct (sort_loop (length (graph st1)) st1 seeds []) as [[s2 st2]| |]
      eqn:Hloop.
    - destruct (sort_loop_prefix _ _ _ _ _ _ Hloop) as [more ->].
      by exists (seeds ++ more), st2, more.
    - exfalso. revert Hloop. apply sort_loop_closed; rewrite Hg; [done..|].
      by intros x [_ Hx]%list_elem_of_filter.
    - exfalso. revert Hloop. apply sort_loop_fuel.
      + split; simpl; [by apply NoDup_filter|].
        intros x [Hx Hk]%list_elem_of_filter. exists 0. split; [|done].
        apply Hzero; [apply elem_of_app; by left | done].
      + intros x Hx. inversion Hx.
      + simpl. lia. }
  eexists r1, _, more. fold st1 sorted1 g. split_and!; [done| | | | |].
  - intros x Hx. apply getInDegree_Some, Hzero; auto.
  - intros x Hx Ht.
    rewrite (getInDegree_Some st1 x 0) by (apply Hzero; auto).
    unfold fresh in Hfresh. rewrite Forall_forall in Hfresh.
    rewrite (getInDegree_Some st x _ (Hfresh x (Hknown x Hx))).
    apply indegree_count_target in Ht. unfold g in Ht. intros [=]. lia.
  - unfold topologicalSort.
    rewrite Hseed, outcome_bind_Done, Hloop, outcome_bind_Done. reflexivity.
  - simpl. by rewrite Hs2.
  - intros Hac. simpl.
    assert (seeds = keys g) as Hall.
    { unfold seeds. rewrite (filter_ext_elem _ (fun _ => True) (keys g)).
      - clear. induction (keys g) as [|a l IH]; [done|].
        by rewrite filter_cons_True, IH.
      - intros x Hx. split; [done|]. intros _.
        eapply kahn_acyclic_all; [done..|]. apply elem_of_app. by left. }
    destruct (sort_loop_nonpos (keys g) (length (graph st1)) st1 [])
      as (st2' & Hrun & _).
    + by rewrite Hg.
    + rewrite Hg. intros x Hx. exists 0. split; [|done].
      apply Hzero; [apply elem_of_app; by left|].
      eapply kahn_acyclic_all; [done..|]. apply elem_of_app. by left.
    + by rewrite Hg.
    + rewrite Hg. unfold keys. by rewrite length_fmap.
    + rewrite Hall, Hrun in Hloop. by injection Hloop as <- _.
Qed.

Lemma second_sort_iteration_order_witness :
  wf_graph (graph main_graph) ∧ fresh main_graph ∧ closed (graph main_graph)
  ∧ ∃ r1 r2,
      topologicalSort main_graph = Done r1
      ∧ topologicalSort (graph_after r1) = Done r2
      ∧ sortedPackages r2 = [pkgA; pkgB; pkgC; pkgD].
Proof.
  assert (wf_graph (graph main_graph)) as Hwf by compute_done.
  assert (fresh main_graph) as Hfresh by compute_done.
  assert (closed (graph main_graph)) as Hcl by compute_done.
  split_and!; [done..|].
  destruct (second_sort_iteration_order main_graph Hwf Hfresh Hcl)
    as (r1 & r2 & more & H1 & _ & _ & H2 & _ & H3).
  exists r1, r2. split_and!; [done..|].
  rewrite H3; [reflexivity | exact main_graph_acyclic].
Defined.

(** C6 (as stated, refuted).  [addDependency] on a package that was never
    registered does give it an adjacency entry. *)
Lemma addDependency_registers_source :
  packageExists emptyGraph pkgA = false
  ∧ packageExists (addDependency emptyGraph pkgA pkgB) pkgA = true
  ∧ getDependencies (addDependency emptyGraph pkgA pkgB) pkgA = Done [pkgB].
Proof. split_and!; compute_done. Qed.

(** C6 (amended).  [addDependency(p, d)] leaves [p] with an adjacency entry
    containing [d] whether or not [p] was registered before, and increments
    [d]'s counter, a missing counter counting as 0; a [d] that was never
    registered and differs from [p] stays without adjacency entry, so its
    counter is an orphan. *)
Theorem addDependency_effect st p d :
  let st' := addDependency st p d in
  packageExists st' p = true
  ∧ (∃ ds, getDependencies st' p = Done ds ∧ d ∈ ds)
  ∧ getInDegree st' d = Done (default 0 (inDegree st !! d) + 1)
  ∧ (packageExists st d = false → d ≠ p →
     packageExists st' d = false ∧ getDependencies st' d = NotFound).
Proof.
  simpl. unfold packageExists, getDependencies, getInDegree, addDependency.
  simpl. destruct (adj_insert_find (graph st) p d) as (ds & Hf & Hd).
  split_and!.
  - apply bool_decide_eq_true. by rewrite Hf.
  - exists ds. by rewrite Hf.
  - by rewrite lookup_insert_eq.
  - intros Hex Hne. rewrite adj_insert_find_ne by done.
    apply bool_decide_eq_false in Hex.
    destruct (graph_find (graph st) d); [by destruct Hex|].
    split; [|done]. apply bool_decide_eq_false. by intros [].
Qed.

Lemma addDependency_effect_witness :
  packageExists emptyGraph pkgB = false ∧ pkgB ≠ pkgA
  ∧ packageExists (addDependency emptyGraph pkgA pkgB) pkgB = false
  ∧ getDependencies (addDependency emptyGraph pkgA pkgB) pkgB = NotFound
  ∧ getInDegree (addDependency emptyGraph pkgA pkgB) pkgB = Done 1.
Proof.
  assert (packageExists emptyGraph pkgB = false) as Hno by compute_done.
  assert (pkgB ≠ pkgA) as Hne by compute_done.
  destruct (addDependency_effect emptyGraph pkgA pkgB)
    as (_ & _ & Hdeg & Horphan).
  destruct (Horphan Hno Hne) as [Hex Hdeps].
  split_and!; [done | done | done | done | exact Hdeg].
Defined.

(** C7 (as stated, refuted).  On [main]'s graph with one edge to a package
    that was never registered, [detectCycle] and [topologicalSort] throw. *)
Lemma orphan_target_not_tolerated :
  pkgX ∈ targets (graph orphan_graph)
  ∧ graph_find (graph orphan_graph) pkgX = None
  ∧ detectCycle orphan_graph = NotFound
  ∧ topologicalSort orphan_graph = NotFound.
Proof. split_and!; compute_done. Qed.

(** C7 (amended).  On every graph that contains a dependency target [x]
    without adjacency entry, [detectConflict], [visualize] and
    [analyzeImpact] return what they return once [x] is given an entry
    with an empty dependency set, wherever that entry falls in iteration
    order; [detectCycle] and [topologicalSort] look the entry up: the
    first throws unless it meets a cycle before, the second (on fresh
    in-degrees) throws or stops short of the package count. *)
Theorem missing_entry_as_empty g1 g2 deg x :
  wf_graph (g1 ++ g2) → x ∈ targets (g1 ++ g2) →
  graph_find (g1 ++ g2) x = None →
  let st := mkGraph (g1 ++ g2) deg in
  let st' := mkGraph (g1 ++ (x, []) :: g2) deg in
  detectConflict st = detectConflict st'
  ∧ visualize st = visualize st'
  ∧ (∀ t, analyzeImpact st t = analyzeImpact st' t)
  ∧ (detectCycle st = NotFound ∨ detectCycle st = Done true)
  ∧ (fresh st →
     topologicalSort st = NotFound
     ∨ ∃ r, topologicalSort st = Done r
            ∧ (length (sortedPackages r) < length (graph st))%nat).
Proof.
  intros Hwf Hx Hf st st'.
  pose proof (orphan_not_closed _ _ Hx Hf) as Hncl.
  split_and!.
  - unfold detectConflict. simpl. by rewrite conflict_pairs_skip.
  - unfold visualize. simpl. by rewrite !bind_app, bind_cons.
  - intros t. unfold analyzeImpact, impactDependents. simpl.
    rewrite !filter_app, filter_cons.
    by rewrite decide_False by (simpl; apply not_elem_of_nil).
  - apply detectCycle_not_closed; [apply Hwf | done].
  - intros Hfresh. by apply topologicalSort_not_closed.
Qed.

Lemma missing_entry_as_empty_witness :
  wf_graph (graph orphan_graph)
  ∧ pkgX ∈ targets (graph orphan_graph)
  ∧ graph_find (graph orphan_graph) pkgX = None
  ∧ visualize orphan_graph
    = visualize (mkGraph ((pkgX, []) :: graph orphan_graph)
                         (inDegree orphan_graph))
  ∧ detectCycle orphan_graph = NotFound.
Proof.
  assert (wf_graph (graph orphan_graph)) as Hwf by compute_done.
  assert (pkgX ∈ targets (graph orphan_graph)) as Hx by compute_done.
  assert (graph_find (graph orphan_graph) pkgX = None) as Hf by compute_done.
  destruct (missing_entry_as_empty [] (graph orphan_graph)
              (inDegree orphan_graph) pkgX Hwf Hx Hf) as (_ & Hv & _ & Hd & _).
  split_and!; [done | done | done | exact Hv |].
  destruct Hd as [Hd|Hd]; [exact Hd | vm_compute in Hd; discriminate Hd].
Defined.

(** C8. For every graph and every target [t], [analyzeImpact] reports
    exactly the packages whose dependency set contains [t]: after its
    header it prints one line "Package p depends on t" for each direct
    dependent [p], each once, in iteration order, and nothing else; so
    every direct dependent has its line in the output, every line of the
    output after the header is the line of a direct dependent, and a
    package that only depends on [t] through another package is not
    reported. *)
Theorem analyzeImpact_direct_dependents st t :
  wf_graph (graph st) →
  analyzeImpact st t
  = ("Impact analysis for package: " +:+ name t)%string
    :: ((fun p => ("Package " +:+ name p +:+ " depends on " +:+ name t)%string)
          <$> impactDependents st t)
  ∧ (∀ p, p ∈ impactDependents st t ↔ edge (graph st) p t)
  ∧ NoDup (impactDependents st t)
  ∧ length (analyzeImpact st t) = S (indegree_count (graph st) t)
  ∧ (∀ p, impact_line p t ∈ analyzeImpact st t →
          ∃ p', impact_line p' t = impact_line p t ∧ edge (graph st) p' t)
  ∧ (∀ p q, edge (graph st) p q → edge (graph st) q t →
            ¬ edge (graph st) p t → p ∉ impactDependents st t)
  ∧ (∀ p, edge (graph st) p t →
          ("Package " +:+ name p +:+ " depends on " +:+ name t)%string
          ∈ analyzeImpact st t)
  ∧ (∀ l, l ∈ analyzeImpact st t ↔
          l = ("Impact analysis for package: " +:+ name t)%string
          ∨ ∃ p, edge (graph st) p t
                 ∧ l = ("Package " +:+ name p +:+ " depends on "
                        +:+ name t)%string).
Proof.
  intros [Hnd _].
  assert (∀ p, p ∈ impactDependents st t ↔ edge (graph st) p t) as Hiff.
  { intros p. by rewrite elem_of_impactDependents, edge_entry. }
  assert (analyzeImpact st t
          = ("Impact analysis for package: " +:+ name t)%string
            :: ((fun p => ("Package " +:+ name p +:+ " depends on "
                           +:+ name t)%string)
                  <$> impactDependents st t)) as Hout by reflexivity.
  split_and!.
  - exact Hout.
  - done.
  - unfold impactDependents.
    eapply sublist_NoDup; [exact Hnd|].
    unfold keys. apply fmap_sublist, sublist_filter.
  - unfold analyzeImpact, impactDependents, indegree_count. simpl.
    by rewrite !length_fmap.
  - unfold analyzeImpact.
    intros p [Hhd|(p' & Heq & Hp')%list_elem_of_fmap]%elem_of_cons.
    + unfold impact_line in Hhd. by simplify_eq/=.
    + exists p'. split; [done | by apply Hiff].
  - intros p q _ _ Hn Hp. by apply Hn, Hiff.
  - intros p Hp. rewrite Hout. apply elem_of_cons. right.
    apply list_elem_of_fmap. exists p. split; [done | by apply Hiff].
  - intros l. rewrite Hout, elem_of_cons, list_elem_of_fmap.
    split; (intros [Hl|(p & Hp1 & Hp2)]; [by left|right; exists p]).
    + split; [by apply Hiff | done].
    + split; [done | by apply Hiff].
Qed.

Lemma analyzeImpact_direct_dependents_witness :
  wf_graph (graph main_graph)
  ∧ impactDependents main_graph pkgB = [pkgA]
  ∧ (edge (graph main_graph) pkgA pkgB
     ∧ pkgA ∈ impactDependents main_graph pkgB
     ∧ "Package pkgA depends on pkgB"%string ∈ analyzeImpact main_graph pkgB)
  ∧ analyzeImpact main_graph pkgB
    = ["Impact analysis for package: pkgB"; "Package pkgA depends on pkgB"]
      %string
  ∧ pkgA ∉ impactDependents main_graph pkgC.
Proof.
  assert (wf_graph (graph main_graph)) as Hwf by compute_done.
  destruct (analyzeImpact_direct_dependents main_graph pkgB Hwf)
    as (Hout & HB & _ & _ & _ & _ & Hline & _).
  destruct (analyzeImpact_direct_dependents main_graph pkgC Hwf)
    as (_ & _ & _ & _ & _ & HC & _).
  assert (pkgA ∈ impactDependents main_graph pkgB) as Hin by compute_done.
  assert (edge (graph main_graph) pkgA pkgB) as He by by apply HB.
  split; [exact Hwf|]. split; [reflexivity|].
  split; [split; [exact He|]; split; [exact Hin | exact (Hline pkgA He)]|].
  split; [rewrite Hout; reflexivity|].
  apply (HC pkgA pkgB).
  - exact He.
  - exists [pkgC]. split; compute_done.
  - intros (ds & Hf & Hd). vm_compute in Hf. simplify_eq.
    revert Hd. compute_done.
Defined.

(** C9. For every graph, [detectConflict] returns true exactly when some
    (package, dependency) edge joins two different version strings.  When
    it returns true it has stopped at the first such pair in scan order,
    which is the one its message names; it returns false, printing
    nothing, only with every edge scanned and none differing. *)
Theorem detectConflict_first_pair st :
  ((detectConflict st).1 = true
   ↔ ∃ p ds d, (p, ds) ∈ graph st ∧ d ∈ ds ∧ version p ≠ version d)
  ∧ match detectConflict st with
    | (true, out) =>
        ∃ l1 p d l2, edge_list (graph st) = l1 ++ (p, d) :: l2
                     ∧ (∀ e, e ∈ l1 → version e.1 = version e.2)
                     ∧ version p ≠ version d
                     ∧ out = [conflict_line p d]
    | (false, out) =>
        out = [] ∧ ∀ e, e ∈ edge_list (graph st) → version e.1 = version e.2
    end.
Proof.
  split; [apply detectConflict_true_iff|].
  apply (conflict_pairs_spec (graph st)).
Qed.

Lemma detectConflict_first_pair_witness :
  (detectConflict main_graph).1 = true.
Proof.
  apply (proj2 (proj1 (detectConflict_first_pair main_graph))).
  exists pkgA, [pkgB; pkgD], pkgB. split_and!; compute_done.
Defined.

(** C10. [detectConflict], [visualize] and [analyzeImpact] scan the
    adjacency entries that exist and look nothing up, so they are total
    functions of the graph with no failing outcome.  On a graph with an
    edge to a package [x] that was never registered they handle that edge
    like any other: it is printed by [visualize], its source is reported
    by [analyzeImpact] for [x], and it is flagged by [detectConflict] when
    the versions differ.  [getDependencies] throws for [x]; of the two
    analyses that call it on each target, [detectCycle] never returns
    false on such a graph and [topologicalSort], on fresh in-degrees,
    never outputs every package. *)
Theorem orphan_edge_scanned st p x :
  wf_graph (graph st) → edge (graph st) p x →
  graph_find (graph st) x = None →
  edge_line p x ∈ visualize st
  ∧ p ∈ impactDependents st x
  ∧ impact_line p x ∈ analyzeImpact st x
  ∧ (version p ≠ version x → (detectConflict st).1 = true)
  ∧ getDependencies st x = NotFound
  ∧ (detectCycle st = NotFound ∨ detectCycle st = Done true)
  ∧ (fresh st →
     topologicalSort st = NotFound
     ∨ ∃ r, topologicalSort st = Done r
            ∧ (length (sortedPackages r) < length (graph st))%nat).
Proof.
  intros Hwf He Hf. pose proof Hwf as [Hnd _].
  assert (¬ closed (graph st)) as Hncl
    by (eapply orphan_not_closed; [by eapply edge_target | done]).
  assert (∃ ds, (p, ds) ∈ graph st ∧ x ∈ ds) as (ds & Hin & Hx)
    by by apply edge_entry.
  assert (p ∈ impactDependents st x) as Himp
    by (apply elem_of_impactDependents; eauto).
  split_and!.
  - unfold visualize. apply elem_of_cons. right. apply elem_of_app. left.
    apply list_elem_of_bind. exists (p, ds). split; [|done].
    by apply list_elem_of_fmap_2.
  - done.
  - unfold analyzeImpact. apply elem_of_cons. right.
    by apply (list_elem_of_fmap_2 (fun q => impact_line q x)).
  - intros Hv. apply detectConflict_true_iff. by exists p, ds, x.
  - unfold getDependencies. by rewrite Hf.
  - by apply detectCycle_not_closed.
  - intros Hfresh. by apply topologicalSort_not_closed.
Qed.

Lemma orphan_edge_scanned_witness :
  wf_graph (graph orphan_graph)
  ∧ edge (graph orphan_graph) pkgC pkgX
  ∧ graph_find (graph orphan_graph) pkgX = None
  ∧ edge_line pkgC pkgX ∈ visualize orphan_graph
  ∧ impactDependents orphan_graph pkgX = [pkgC]
  ∧ (detectConflict orphan_graph).1 = true
  ∧ detectCycle orphan_graph = NotFound.
Proof.
  assert (wf_graph (graph orphan_graph)) as Hwf by compute_done.
  assert (edge (graph orphan_graph) pkgC pkgX) as He
    by (exists [pkgX]; split; compute_done).
  assert (graph_find (graph orphan_graph) pkgX = None) as Hf by compute_done.
  destruct (orphan_edge_scanned orphan_graph pkgC pkgX Hwf He Hf)
    as (Hv & _ & _ & Hc & _ & Hd & _).
  split_and!; [done | done | done | done | reflexivity | |].
  - apply Hc. compute_done.
  - destruct Hd as [Hd|Hd]; [done|]. vm_compute in Hd. discriminate Hd.
Defined.

(** ** The run of [main] *)

(** The examples show the run for the iteration order of [main_graph],
    which is the order of registration; the hash containers may iterate in
    another order, for which the theorems above hold all the same. *)

Example main_graph_adjacency :
  graph main_graph
  = [(pkgA, [pkgB; pkgD]); (pkgB, [pkgC]); (pkgC, []); (pkgD, [])].
Proof. reflexivity. Qed.

Example main_graph_inDegree :
  getInDegree main_graph pkgA = Done 0 ∧ getInDegree main_graph pkgB = Done 1
  ∧ getInDegree main_graph pkgC = Done 1 ∧ getInDegree main_graph pkgD = Done 1.
Proof. split_and!; compute_done. Qed.

Example main_run :
  detectCycle main_graph = Done false
  ∧ (r ← topologicalSort main_graph; mret (sort_printed r))
    = Done ["Topological Order (Build Order):"; "pkgA 1.0.1"; "pkgB 2.3.0";
            "pkgD 1.5.0"; "pkgC 3.1.2"]%string
  ∧ detectConflict main_graph
    = (true, ["Conflict detected: pkgA and pkgB have incompatible versions."
              %string])
  ∧ visualize main_graph
    = ["digraph dependencies {"; edge_line pkgA pkgB; edge_line pkgA pkgD;
       edge_line pkgB pkgC; "}"]%string
  ∧ analyzeImpact main_graph pkgB
    = ["Impact analysis for package: pkgB"; "Package pkgA depends on pkgB"]
      %string.
Proof. split_and!; compute_done. Qed.

Example cyclic_run :
  detectCycle cyclic_graph = Done true
  ∧ (r ← topologicalSort cyclic_graph; mret (sortedPackages r, sort_printed r))
    = Done ([], ["Cycle detected! Topological sort is not possible."%string]).
Proof. split_and!; compute_done. Qed.

(** * Further properties of the code *)

(** ** The mutators of the graph *)

Lemma graph_find_snoc g p ds q :
  graph_find (g ++ [(p, ds)]) q
  = match graph_find g q with
    | Some x => Some x
    | None => if decide (p = q) then Some ds else None
    end.
Proof.
  induction g as [|[k ks] g IH]; simpl; [done|].
  by destruct (decide (k = q)).
Qed.

Lemma adj_insert_find_eq g p d :
  graph_find (adj_insert g p d) p
  = Some (set_insert (default [] (graph_find g p)) d).
Proof.
  induction g as [|[q qs] g IH]; simpl.
  - by rewrite decide_True.
  - destruct (decide (q = p)) as [->|Hne]; simpl.
    + by rewrite decide_True.
    + by rewrite decide_False.
Qed.

Lemma elem_of_set_insert ds d x : x ∈ set_insert ds d ↔ x = d ∨ x ∈ ds.
Proof. unfold set_insert. case_decide; set_solver. Qed.

Lemma NoDup_set_insert ds d : NoDup ds → NoDup (set_insert ds d).
Proof.
  intros Hnd. unfold set_insert. case_decide; [done|].
  apply NoDup_app. split_and!; [done| |apply NoDup_singleton].
  by intros x Hx ->%list_elem_of_singleton.
Qed.

Lemma adj_insert_present g p d :
  (∃ ds, graph_find g p = Some ds ∧ d ∈ ds) → adj_insert g p d = g.
Proof.
  intros (ds & Hf & Hd). induction g as [|[q qs] g IH]; simpl in *; [done|].
  destruct (decide (q = p)) as [->|Hne].
  - simplify_eq. unfold set_insert. by rewrite decide_True.
  - by rewrite IH.
Qed.

Lemma keys_adj_insert g p d :
  keys (adj_insert g p d) = if decide (p ∈ keys g) then keys g else keys g ++ [p].
Proof.
  unfold keys. induction g as [|[q qs] g IH].
  - by destruct (decide (p ∈ [])) as [H|]; [inversion H|].
  - cbn [adj_insert]. destruct (decide (q = p)) as [->|Hne].
    + rewrite !fmap_cons. cbn [fst]. rewrite decide_True; [done | by left].
    + rewrite !fmap_cons, IH. cbn [fst]. destruct (decide (p ∈ g.*1)).
      * rewrite decide_True; [done | by right].
      * rewrite decide_False; [done|]. rewrite not_elem_of_cons. naive_solver.
Qed.

Lemma Forall_adj_insert (P : Package * list Package → Prop) g p d :
  (∀ ds, P (p, ds) → P (p, set_insert ds d)) → P (p, set_insert [] d) →
  Forall P g → Forall P (adj_insert g p d).
Proof.
  intros Hstep Hnew. induction 1 as [|[q qs] g Hq Hg IH]; simpl.
  - by constructor.
  - destruct (decide (q = p)) as [->|Hne]; constructor; auto.
Qed.

(** X1. [addPackage(pkg)] leaves [pkg] registered with the dependency set
    it already had, or the empty set if it had none, and with in-degree 0;
    it changes nothing for any other package. *)
Theorem addPackage_lookup st pkg :
  packageExists (addPackage st pkg) pkg = true
  ∧ getDependencies (addPackage st pkg) pkg
    = Done (default [] (graph_find (graph st) pkg))
  ∧ getInDegree (addPackage st pkg) pkg = Done 0
  ∧ ∀ q, q ≠ pkg →
         getDependencies (addPackage st pkg) q = getDependencies st q
         ∧ getInDegree (addPackage st pkg) q = getInDegree st q
         ∧ packageExists (addPackage st pkg) q = packageExists st q.
Proof.
  unfold packageExists, getDependencies, getInDegree, addPackage. simpl.
  split_and!.
  - apply bool_decide_eq_true.
    destruct (graph_find (graph st) pkg) eqn:Hf; [by rewrite Hf|].
    by rewrite graph_find_snoc, Hf, decide_True.
  - destruct (graph_find (graph st) pkg) eqn:Hf; [by rewrite Hf|].
    by rewrite graph_find_snoc, Hf, decide_True.
  - by rewrite lookup_insert_eq.
  - intros q Hne. rewrite lookup_insert_ne by done.
    assert (graph_find
              match graph_find (graph st) pkg with
              | Some _ => graph st
              | None => graph st ++ [(pkg, [])]
              end q = graph_find (graph st) q) as ->; [|done].
    destruct (graph_find (graph st) pkg); [done|].
    rewrite graph_find_snoc, decide_False by done.
    by destruct (graph_find (graph st) q).
Qed.

Lemma addPackage_lookup_witness :
  pkgB ≠ pkgA
  ∧ getDependencies (addPackage main_graph pkgA) pkgA = Done [pkgB; pkgD]
  ∧ getDependencies (addPackage main_graph pkgA) pkgB = Done [pkgC]
  ∧ getInDegree (addPackage main_graph pkgA) pkgB = Done 1.
Proof.
  assert (pkgB ≠ pkgA) as Hne by compute_done.
  destruct (addPackage_lookup main_graph pkgA) as (_ & Hdeps & _ & Hframe).
  destruct (Hframe pkgB Hne) as (HdB & HiB & _).
  split; [exact Hne|]. split; [exact Hdeps|].
  split; [by rewrite HdB | by rewrite HiB].
Defined.

(** X2. [addDependency(pkg, dependency)] changes the dependency set of
    [pkg] only, to which it adds [dependency], and the counter of
    [dependency] only.  The set ignores an edge it already holds, so adding
    an existing edge leaves the adjacency map as it was while the counter
    still goes up by one. *)
Theorem addDependency_frame st pkg dependency :
  (∀ x, edge (graph (addDependency st pkg dependency)) pkg x
        ↔ x = dependency ∨ edge (graph st) pkg x)
  ∧ (∀ q, q ≠ pkg →
          getDependencies (addDependency st pkg dependency) q
          = getDependencies st q)
  ∧ (∀ x, x ≠ dependency →
          getInDegree (addDependency st pkg dependency) x = getInDegree st x)
  ∧ (edge (graph st) pkg dependency →
     graph (addDependency st pkg dependency) = graph st
     ∧ ∀ n, getInDegree st dependency = Done n →
            getInDegree (addDependency st pkg dependency) dependency
            = Done (n + 1)).
Proof.
  unfold getDependencies, getInDegree, addDependency. simpl. split_and!.
  - intros x. unfold edge. rewrite adj_insert_find_eq. split.
    + intros (ds & [= <-] & [->|Hx]%elem_of_set_insert); [by left|].
      right. destruct (graph_find (graph st) pkg) as [ds|]; [by eauto|].
      by inversion Hx.
    + intros [->|(ds & Hf & Hx)]; eexists; (split; [done|]);
        apply elem_of_set_insert; [by left|]. right. by rewrite Hf.
  - intros q Hne. by rewrite adj_insert_find_ne.
  - intros x Hne. by rewrite lookup_insert_ne.
  - intros He. split; [by apply adj_insert_present|].
    intros n Hn. rewrite lookup_insert_eq.
    by destruct (inDegree st !! dependency); simplify_eq.
Qed.

Lemma addDependency_frame_witness :
  edge (graph main_graph) pkgA pkgB
  ∧ graph (addDependency main_graph pkgA pkgB) = graph main_graph
  ∧ getInDegree (addDependency main_graph pkgA pkgB) pkgB = Done 2.
Proof.
  assert (edge (graph main_graph) pkgA pkgB) as He
    by (exists [pkgB; pkgD]; split; compute_done).
  destruct (addDependency_frame main_graph pkgA pkgB) as (_ & _ & _ & Hdup).
  destruct (Hdup He) as [Hg Hn].
  split; [exact He|]. split; [exact Hg|].
  apply (Hn 1). compute_done.
Defined.

Lemma wf_addPackage st pkg :
  wf_graph (graph st) → wf_graph (graph (addPackage st pkg)).
Proof.
  intros [Hnd Hsets]. unfold addPackage. simpl.
  destruct (graph_find (graph st) pkg) eqn:Hf; [done|].
  apply graph_find_None in Hf. split.
  - unfold keys in *. rewrite fmap_app. simpl.
    apply NoDup_app. split_and!; [done| |apply NoDup_singleton].
    by intros x Hx ->%list_elem_of_singleton.
  - apply Forall_app. split; [done|]. repeat constructor.
Qed.

Lemma wf_addDependency st pkg dependency :
  wf_graph (graph st) → wf_graph (graph (addDependency st pkg dependency)).
Proof.
  intros [Hnd Hsets]. unfold addDependency. simpl. split.
  - rewrite keys_adj_insert. case_decide as Hk; [done|].
    apply NoDup_app. split_and!; [done| |apply NoDup_singleton].
    by intros x Hx ->%list_elem_of_singleton.
  - apply Forall_adj_insert; [| |done]; simpl.
    + intros ds. apply NoDup_set_insert.
    + apply NoDup_set_insert, NoDup_nil_2.
Qed.

(** X3. The mutators keep the container invariants: from a graph with
    unique keys and duplicate-free dependency sets, any sequence of
    [addPackage] and [addDependency] calls, in any order and with any
    repetitions, leads to a graph with unique keys and duplicate-free
    dependency sets. *)
Theorem apply_calls_wf cs :
  ∀ st, wf_graph (graph st) → wf_graph (graph (apply_calls st cs)).
Proof.
  unfold apply_calls. induction cs as [|c cs IH]; intros st Hwf; [done|].
  simpl. apply IH. destruct c; [by apply wf_addPackage|].
  by apply wf_addDependency.
Qed.

Lemma apply_calls_wf_witness :
  wf_graph (graph emptyGraph)
  ∧ wf_graph (graph (apply_calls emptyGraph
                       (main_calls ++ [AddDependency pkgA pkgB;
                                       AddPackage pkgB;
                                       AddDependency pkgX pkgA]))).
Proof.
  assert (wf_graph (graph emptyGraph)) as Hwf by compute_done.
  split; [exact Hwf|]. by apply apply_calls_wf.
Defined.

(** ** Counters in step with the adjacency map *)

Lemma indegree_count_zero g x : x ∉ targets g → indegree_count g x = 0%nat.
Proof.
  intros Hx. rewrite <- remaining_nil. apply remaining_zero.
  intros p ds Hin Hd. destruct Hx. apply list_elem_of_bind. by exists (p, ds).
Qed.

Lemma targets_snoc_empty g p x : x ∈ targets (g ++ [(p, [])]) ↔ x ∈ targets g.
Proof. unfold targets. rewrite bind_app. simpl. rewrite elem_of_app. set_solver. Qed.

Lemma indegree_count_snoc_empty g p x :
  indegree_count (g ++ [(p, [])]) x = indegree_count g x.
Proof.
  unfold indegree_count. rewrite filter_app, length_app, filter_cons.
  rewrite decide_False by (simpl; apply not_elem_of_nil). simpl. lia.
Qed.

Lemma indegree_count_adj_insert g p d x :
  p ∈ keys g → d ∉ default [] (graph_find g p) →
  indegree_count (adj_insert g p d) x
  = (indegree_count g x + if decide (x = d) then 1 else 0)%nat.
Proof.
  unfold indegree_count, keys.
  induction g as [|[q qs] g IH]; intros Hp Hd; [by inversion Hp|].
  cbn [adj_insert]. cbn [graph_find] in Hd.
  destruct (decide (q = p)) as [->|Hne].
  - simpl in Hd. rewrite !filter_cons. cbn [snd].
    unfold set_insert. rewrite (decide_False (P := d ∈ qs)) by done.
    destruct (decide (x = d)) as [->|Hxd].
    + rewrite decide_True by set_solver. rewrite decide_False by done.
      simpl. lia.
    + destruct (decide (x ∈ qs)).
      * rewrite decide_True by set_solver. simpl. lia.
      * rewrite decide_False by set_solver. lia.
  - rewrite fmap_cons in Hp. apply elem_of_cons in Hp as [->|Hp]; [done|].
    rewrite !filter_cons. cbn [snd]. specialize (IH Hp Hd).
    destruct (decide (x ∈ qs)); simpl; lia.
Qed.

Lemma targets_adj_insert g p d x :
  x ∈ targets (adj_insert g p d) ↔ x = d ∨ x ∈ targets g.
Proof.
  unfold targets. induction g as [|[q qs] g IH]; cbn [adj_insert].
  - rewrite bind_cons. cbn [snd mbind list_bind]. rewrite app_nil_r.
    rewrite elem_of_set_insert. set_solver.
  - destruct (decide (q = p)) as [->|Hne]; rewrite !bind_cons; cbn [snd].
    + rewrite !elem_of_app, elem_of_set_insert. naive_solver.
    + rewrite !elem_of_app, IH. naive_solver.
Qed.

Lemma counted_addPackage st pkg :
  counted st → pkg ∉ targets (graph st) → counted (addPackage st pkg).
Proof.
  intros (Hwf & Hfresh & Hdom) Hpkg.
  split; [by apply wf_addPackage|].
  unfold fresh in *. rewrite Forall_forall in Hfresh.
  unfold addPackage. simpl.
  destruct (graph_find (graph st) pkg) as [ds|] eqn:Hf.
  - assert (pkg ∈ keys (graph st)) as Hk by (apply graph_find_is_Some; eauto).
    split.
    + apply Forall_forall. intros x Hx.
      destruct (decide (x = pkg)) as [->|Hne].
      * by rewrite lookup_insert_eq, indegree_count_zero.
      * rewrite lookup_insert_ne by done. by apply Hfresh.
    + intros x. destruct (decide (x = pkg)) as [->|Hne].
      * intros _. apply elem_of_app. by left.
      * rewrite lookup_insert_ne by done. apply Hdom.
  - assert (∀ x, x ∈ keys (graph st ++ [(pkg, [])])
                     ++ targets (graph st ++ [(pkg, [])])
                 ↔ x = pkg ∨ x ∈ keys (graph st) ++ targets (graph st))
      as Hknown.
    { intros x. unfold keys. rewrite fmap_app, !elem_of_app.
      rewrite targets_snoc_empty. simpl. rewrite list_elem_of_singleton.
      naive_solver. }
    split.
    + apply Forall_forall. intros x Hx. rewrite indegree_count_snoc_empty.
      destruct (decide (x = pkg)) as [->|Hne].
      * by rewrite lookup_insert_eq, indegree_count_zero.
      * rewrite lookup_insert_ne by done.
        apply Hknown in Hx as [->|Hx]; [done | by apply Hfresh].
    + intros x Hx. apply Hknown. destruct (decide (x = pkg)) as [->|Hne];
        [by left|]. right. rewrite lookup_insert_ne in Hx by done. auto.
Qed.

Lemma counted_addDependency st pkg dependency :
  counted st → pkg ∈ keys (graph st) →
  dependency ∉ default [] (graph_find (graph st) pkg) →
  counted (addDependency st pkg dependency).
Proof.
  intros (Hwf & Hfresh & Hdom) Hk Hnew.
  split; [by apply wf_addDependency|].
  unfold fresh in *. rewrite Forall_forall in Hfresh.
  unfold addDependency. simpl.
  assert (∀ x, x ∈ keys (adj_insert (graph st) pkg dependency)
                   ++ targets (adj_insert (graph st) pkg dependency)
               ↔ x = dependency ∨ x ∈ keys (graph st) ++ targets (graph st))
    as Hknown.
  { intros x. rewrite keys_adj_insert, decide_True by done.
    rewrite !elem_of_app, targets_adj_insert. naive_solver. }
  split.
  - apply Forall_forall. intros x Hx.
    rewrite indegree_count_adj_insert by done.
    destruct (decide (x = dependency)) as [->|Hne].
    + rewrite lookup_insert_eq. f_equal.
      destruct (decide (dependency ∈ keys (graph st) ++ targets (graph st)))
        as [Hin|Hnin].
      * rewrite (Hfresh _ Hin). simpl. lia.
      * destruct (inDegree st !! dependency) eqn:Hd;
          [destruct Hnin; apply Hdom; eauto|].
        rewrite indegree_count_zero; [simpl; lia|].
        intros Ht. apply Hnin, elem_of_app. by right.
    + rewrite lookup_insert_ne by done.
      apply Hknown in Hx as [->|Hx]; [done|].
      rewrite (Hfresh _ Hx). do 2 f_equal. lia.
  - intros x Hx. apply Hknown.
    destruct (decide (x = dependency)) as [->|Hne]; [by left|]. right.
    rewrite lookup_insert_ne in Hx by done. auto.
Qed.

Lemma counted_apply_calls cs :
  ∀ st, counted st → calls_ok st cs → counted (apply_calls st cs).
Proof.
  unfold apply_calls. induction cs as [|c cs IH]; intros st Hc Hok; [done|].
  destruct Hok as [Hc1 Hrest]. simpl. apply IH; [|done].
  destruct c as [pkg|pkg dependency]; simpl in *.
  - by apply counted_addPackage.
  - destruct Hc1. by apply counted_addDependency.
Qed.

(** X4. Starting from the empty graph, if every package is registered
    before any package depends on it and every edge is added once, from a
    registered package, then the graph built has unique keys,
    duplicate-free dependency sets, and for every key and every edge
    target a stored in-degree equal to the number of dependency sets that
    contain it. *)
Theorem disciplined_calls_fresh cs :
  calls_ok emptyGraph cs →
  wf_graph (graph (apply_calls emptyGraph cs))
  ∧ fresh (apply_calls emptyGraph cs).
Proof.
  intros Hok.
  destruct (counted_apply_calls cs emptyGraph) as (Hwf & Hfresh & _);
    [|done|done].
  split_and!; [by repeat constructor|by constructor|].
  by intros x [z Hz].
Qed.

Lemma disciplined_calls_fresh_witness :
  calls_ok emptyGraph main_calls
  ∧ apply_calls emptyGraph main_calls = main_graph
  ∧ fresh main_graph.
Proof.
  assert (calls_ok emptyGraph main_calls) as Hok.
  { simpl. split_and!; compute_done. }
  split; [exact Hok|]. split; [reflexivity|].
  apply (disciplined_calls_fresh main_calls Hok).
Defined.

(** ** The sorter on arbitrary counters *)

Lemma seed_NotFound st p :
  ∀ pkgs queue,
    p ∈ pkgs → inDegree st !! p = None → seed st pkgs queue = NotFound.
Proof.
  induction pkgs as [|q rest IH]; intros queue Hp Hnone; [by inversion Hp|].
  cbn [seed]. destruct (inDegree st !! q) as [z|] eqn:Hz.
  - rewrite (getInDegree_Some _ _ _ Hz), outcome_bind_Done.
    apply elem_of_cons in Hp as [->|Hp]; [congruence | by apply IH].
  - by rewrite (getInDegree_None _ _ Hz).
Qed.

(** X5. [topologicalSort] throws in its seeding loop whenever some key of
    the adjacency map has no in-degree entry.  [addDependency] from a
    package that was never registered and has no counter leaves the graph
    in that state. *)
Theorem topologicalSort_missing_counter :
  (∀ st p, p ∈ keys (graph st) → inDegree st !! p = None →
           topologicalSort st = NotFound)
  ∧ (∀ st pkg dependency,
       packageExists st pkg = false → inDegree st !! pkg = None →
       pkg ≠ dependency →
       topologicalSort (addDependency st pkg dependency) = NotFound).
Proof.
  assert (∀ st p, p ∈ keys (graph st) → inDegree st !! p = None →
                  topologicalSort st = NotFound) as Hgen.
  { intros st p Hp Hnone. unfold topologicalSort.
    by rewrite (seed_NotFound st p). }
  split; [exact Hgen|].
  intros st pkg dependency _ Hnone Hne. apply (Hgen _ pkg).
  - apply graph_find_is_Some. simpl. rewrite adj_insert_find_eq. eauto.
  - simpl. by rewrite lookup_insert_ne.
Qed.

Lemma topologicalSort_missing_counter_witness :
  packageExists emptyGraph pkgA = false
  ∧ inDegree emptyGraph !! pkgA = None
  ∧ pkgA ≠ pkgB
  ∧ topologicalSort (addDependency emptyGraph pkgA pkgB) = NotFound.
Proof.
  assert (packageExists emptyGraph pkgA = false) as H1 by compute_done.
  assert (inDegree emptyGraph !! pkgA = None) as H2 by compute_done.
  assert (pkgA ≠ pkgB) as H3 by compute_done.
  split; [exact H1|]. split; [exact H2|]. split; [exact H3|].
  exact (proj2 topologicalSort_missing_counter emptyGraph pkgA pkgB H1 H2 H3).
Defined.

Lemma relax_graph :
  ∀ ds st queue st' queue',
    relax ds st queue = Done (st', queue') → graph st' = graph st.
Proof.
  induction ds as [|dep rest IH]; intros st queue st' queue'; cbn [relax].
  - by intros [= <- _].
  - destruct (inDegree st !! dep) as [z|] eqn:Hz;
      [|by rewrite (getInDegree_None _ _ Hz)].
    rewrite (getInDegree_Some _ _ _ Hz), outcome_bind_Done.
    rewrite getInDegree_set, outcome_bind_Done.
    by intros ->%IH.
Qed.

Lemma sort_loop_graph fuel :
  ∀ st queue sorted sorted' st',
    sort_loop fuel st queue sorted = Done (sorted', st') →
    graph st' = graph st.
Proof.
  induction fuel as [|fuel IH]; intros st queue sorted sorted' st'.
  all: destruct queue as [|pkg queue]; cbn [sort_loop];
    [by intros [= _ <-]|].
  all: unfold getDependencies;
    destruct (graph_find (graph st) pkg) as [ds|]; [|done];
    rewrite outcome_bind_Done; try done.
  destruct (relax ds st queue) as [[st1 queue1]| |] eqn:Hrelax; [|done..].
  rewrite outcome_bind_Done. simpl.
  apply relax_graph in Hrelax. intros ->%IH. done.
Qed.

Lemma topologicalSort_Done st r :
  topologicalSort st = Done r →
  ∃ queue,
    seed st (graph st).*1 [] = Done queue
    ∧ sort_loop (length (graph st)) st queue []
      = Done (sortedPackages r, graph_after r)
    ∧ sort_printed r
      = if decide (length (sortedPackages r) ≠ length (graph (graph_after r)))
        then ["Cycle detected! Topological sort is not possible."%string]
        else "Topological Order (Build Order):"%string
             :: map package_line (sortedPackages r).
Proof.
  unfold topologicalSort.
  destruct (seed st (graph st).*1 []) as [queue| |] eqn:Hseed; [|done..].
  rewrite outcome_bind_Done.
  destruct (sort_loop (length (graph st)) st queue [])
    as [[sorted st']| |] eqn:Hloop; [|done..].
  rewrite outcome_bind_Done. simpl. intros [= <-]. exists queue.
  simpl. by rewrite Hloop.
Qed.

Lemma sort_loop_sorted fuel :
  ∀ st queue sorted sorted' st',
    queue_inv (inDegree st) queue sorted →
    (∀ x, x ∈ sorted → x ∈ keys (graph st)) →
    sort_loop fuel st queue sorted = Done (sorted', st') →
    NoDup sorted' ∧ ∀ x, x ∈ sorted' → x ∈ keys (graph st).
Proof.
  induction fuel as [|fuel IH]; intros st queue sorted sorted' st' Hinv Hkeys.
  all: destruct queue as [|pkg queue]; cbn [sort_loop];
    [intros [= <- _]; destruct Hinv as [Hnd _];
     by rewrite app_nil_r in Hnd|].
  all: unfold getDependencies;
    destruct (graph_find (graph st) pkg) as [ds|] eqn:Hf; [|done];
    rewrite outcome_bind_Done; try done.
  assert (queue_inv (inDegree st) queue (sorted ++ [pkg])) as Hinv'
    by (destruct Hinv; split; by rewrite <- app_assoc).
  pose proof (relax_queue_inv (sorted ++ [pkg]) ds st queue Hinv') as Hr.
  destruct (relax ds st queue) as [[st1 queue1]| |]; [|done..].
  rewrite outcome_bind_Done. simpl in *. destruct Hr as [Hg Hinv1].
  intros Hrun. rewrite <- Hg. eapply IH; [exact Hinv1| |exact Hrun].
  rewrite Hg.
  intros x [Hx| ->%list_elem_of_singleton]%elem_of_app; [by auto|].
  apply graph_find_is_Some. eauto.
Qed.

(** X6. Whatever the in-degree counters hold, on a graph with unique keys
    [topologicalSort] either throws or returns after at most one round per
    package: it never outputs a package twice, never outputs a package
    that is not a key, so never more packages than the graph has.  It
    returns, rather than throws, when every target is registered and every
    key has a counter. *)
Theorem topologicalSort_output_sound st :
  NoDup (keys (graph st)) →
  topologicalSort st ≠ OutOfFuel
  ∧ (closed (graph st) →
     (∀ p, p ∈ keys (graph st) → is_Some (inDegree st !! p)) →
     ∃ r, topologicalSort st = Done r)
  ∧ ∀ r, topologicalSort st = Done r →
         NoDup (sortedPackages r)
         ∧ (∀ x, x ∈ sortedPackages r → x ∈ keys (graph st))
         ∧ (length (sortedPackages r) ≤ length (graph st))%nat.
Proof.
  intros Hnd.
  assert (queue_inv (inDegree st)
            (filter (fun p => inDegree st !! p = Some 0) (keys (graph st)))
            []) as Hinit.
  { split; simpl; [by apply NoDup_filter|].
    intros x [Hx _]%list_elem_of_filter. by exists 0. }
  split_and!.
  - by apply topologicalSort_fuel.
  - intros Hcl Hdom. pose proof (topologicalSort_fuel st Hnd) as Hfuel.
    unfold topologicalSort in *.
    rewrite seed_Done in * by exact Hdom. rewrite outcome_bind_Done in *.
    simpl in *.
    match goal with |- context [sort_loop ?f st ?q []] =>
      pose proof (sort_loop_closed f st q [] Hcl Hdom) as Hnf end.
    destruct (sort_loop _ _ _ _) as [x| |]; [by eauto| |done].
    destruct Hnf; [|done]. by intros x [_ Hx]%list_elem_of_filter.
  - intros r (queue & Hseed & Hloop & _)%topologicalSort_Done.
    destruct (seed_outcome st (graph st).*1 []) as [Hs|Hs];
      rewrite Hs in Hseed; [done|]. injection Hseed as <-. simpl in Hloop.
    destruct (sort_loop_sorted _ _ _ _ _ _ Hinit
                ltac:(by intros x Hx; inversion Hx) Hloop) as [Hnds Hsub].
    split_and!; [done..|].
    rewrite <- (length_fmap fst (graph st)).
    by apply submseteq_length, NoDup_submseteq.
Qed.

Lemma topologicalSort_output_sound_witness :
  NoDup (keys (graph duplicate_edge_graph))
  ∧ ∃ r, topologicalSort duplicate_edge_graph = Done r
         ∧ NoDup (sortedPackages r)
         ∧ (length (sortedPackages r) ≤ 2)%nat.
Proof.
  assert (NoDup (keys (graph duplicate_edge_graph))) as Hnd by compute_done.
  destruct (topologicalSort_output_sound duplicate_edge_graph Hnd)
    as (_ & Hrun & Hout).
  destruct Hrun as [r Hr]; [compute_done | |].
  { apply Forall_forall. compute_done. }
  split; [exact Hnd|]. exists r. destruct (Hout r Hr) as (H1 & _ & H3).
  split; [exact Hr|]. split; [exact H1 | exact H3].
Defined.

(** ** Analyses that read the adjacency map only *)

Lemma for_each_pkg_ext visit visit' :
  (∀ p s, visit p s = visit' p s) →
  ∀ pkgs s, for_each_pkg visit pkgs s = for_each_pkg visit' pkgs s.
Proof.
  intros Hext. induction pkgs as [|p rest IH]; intros s; [done|].
  simpl. rewrite Hext. destruct (visit' p s) as [[[] s']| |]; auto.
Qed.

Lemma detectCycleUtil_graph st st' :
  graph st = graph st' →
  ∀ fuel pkg s, detectCycleUtil fuel st pkg s = detectCycleUtil fuel st' pkg s.
Proof.
  intros Hg. induction fuel as [|fuel IH]; intros pkg s;
    rewrite !detectCycleUtil_unfold; unfold getDependencies; rewrite Hg.
  - done.
  - repeat case_decide; try done.
    destruct (graph_find (graph st') pkg) as [ds|]; [|done].
    rewrite !outcome_bind_Done. by rewrite (for_each_pkg_ext _ _ IH).
Qed.

Lemma detectCycle_graph st st' :
  graph st = graph st' → detectCycle st = detectCycle st'.
Proof.
  intros Hg. unfold detectCycle. rewrite Hg.
  by rewrite (for_each_pkg_ext _ _ (detectCycleUtil_graph st st' Hg _)).
Qed.

(** X7. [topologicalSort] changes in-degree counters only: when it
    returns, the adjacency map is the one it was given, and [detectCycle],
    [detectConflict], [visualize] and [analyzeImpact] give on the graph it
    leaves behind exactly the results and output they give on the graph
    before the sort. *)
Theorem analyses_unchanged_by_sort st r :
  topologicalSort st = Done r →
  graph (graph_after r) = graph st
  ∧ detectCycle (graph_after r) = detectCycle st
  ∧ detectConflict (graph_after r) = detectConflict st
  ∧ visualize (graph_after r) = visualize st
  ∧ ∀ t, analyzeImpact (graph_after r) t = analyzeImpact st t.
Proof.
  intros (queue & _ & Hloop & _)%topologicalSort_Done.
  apply sort_loop_graph in Hloop.
  split_and!; [done|by apply detectCycle_graph|..].
  - unfold detectConflict. by rewrite Hloop.
  - unfold visualize. by rewrite Hloop.
  - intros t. unfold analyzeImpact, impactDependents. by rewrite Hloop.
Qed.

Lemma analyses_unchanged_by_sort_witness :
  ∃ r, topologicalSort main_graph = Done r
       ∧ getInDegree main_graph pkgB = Done 1
       ∧ getInDegree (graph_after r) pkgB = Done 0
       ∧ graph (graph_after r) = graph main_graph
       ∧ detectCycle (graph_after r) = Done false.
Proof.
  assert (∃ r, topologicalSort main_graph = Done r) as [r Hr]
    by (eexists; vm_compute; reflexivity).
  exists r.
  destruct (analyses_unchanged_by_sort main_graph r Hr) as (Hg & Hc & _).
  split; [exact Hr|]. split; [compute_done|]. split.
  - revert Hr. vm_compute. by intros [= <-].
  - split; [exact Hg|]. rewrite Hc. compute_done.
Defined.

(** X8. On a graph with registered targets and freshly computed
    in-degrees [topologicalSort] returns, and what it prints tells whether
    the graph has a cycle: on a cyclic graph the single line of the cycle
    message, having output fewer packages than there are; on an acyclic
    graph the header followed by one "name version" line for each package,
    in the order output. *)
Theorem topologicalSort_verdict st :
  wf_graph (graph st) → fresh st → closed (graph st) →
  ∃ r, topologicalSort st = Done r
       ∧ (cyclic (graph st) →
          sort_printed r
          = ["Cycle detected! Topological sort is not possible."%string]
          ∧ (length (sortedPackages r) < length (graph st))%nat)
       ∧ (acyclic (graph st) →
          sort_printed r
          = "Topological Order (Build Order):"%string
            :: map package_line (sortedPackages r)
          ∧ length (sortedPackages r) = length (graph st)).
Proof.
  intros Hwf Hfresh Hcl.
  pose proof (topologicalSort_spec st Hwf Hfresh) as Hspec.
  destruct (topologicalSort st) as [r| |] eqn:Hrun; [|done..].
  destruct Hspec as [Hg Hinv]. destruct Hwf as [Hnd _].
  apply topologicalSort_Done in Hrun as (_ & _ & _ & Hprint).
  rewrite Hg in Hprint. exists r. split_and!; [done| |].
  - intros [p Hp].
    assert (length (sortedPackages r) ≠ length (graph st)) as Hne.
    { intros Heq.
      destruct (kahn_full_closed_acyclic _ _ _ Hnd Hinv) as [_ Hac].
      - by eapply kahn_full_keys.
      - by destruct (Hac p). }
    rewrite decide_True in Hprint by done. split; [done|].
    pose proof (kahn_sorted_length _ _ _ _ Hinv). lia.
  - intros Hac.
    pose proof (kahn_acyclic_length _ _ _ Hnd Hinv Hac) as Hlen.
    rewrite decide_False in Hprint by (intros Hne; by destruct Hne).
    done.
Qed.

Lemma topologicalSort_verdict_witness :
  (wf_graph (graph main_graph) ∧ fresh main_graph ∧ closed (graph main_graph)
   ∧ ∃ r, topologicalSort main_graph = Done r
          ∧ length (sort_printed r) = 5%nat)
  ∧ (wf_graph (graph cyclic_graph) ∧ fresh cyclic_graph
     ∧ closed (graph cyclic_graph)
     ∧ ∃ r, topologicalSort cyclic_graph = Done r
            ∧ length (sort_printed r) = 1%nat).
Proof.
  assert (wf_graph (graph main_graph)) as Hwf1 by compute_done.
  assert (fresh main_graph) as Hf1 by compute_done.
  assert (closed (graph main_graph)) as Hc1 by compute_done.
  assert (wf_graph (graph cyclic_graph)) as Hwf2 by compute_done.
  assert (fresh cyclic_graph) as Hf2 by compute_done.
  assert (closed (graph cyclic_graph)) as Hc2 by compute_done.
  destruct (topologicalSort_verdict main_graph Hwf1 Hf1 Hc1)
    as (r1 & Hr1 & _ & Hacyc).
  destruct (topologicalSort_verdict cyclic_graph Hwf2 Hf2 Hc2)
    as (r2 & Hr2 & Hcyc & _).
  split.
  - split; [exact Hwf1|]. split; [exact Hf1|]. split; [exact Hc1|].
    exists r1. split; [exact Hr1|].
    destruct (Hacyc main_graph_acyclic) as [-> Hlen].
    simpl. rewrite length_map, Hlen. reflexivity.
  - split; [exact Hwf2|]. split; [exact Hf2|]. split; [exact Hc2|].
    exists r2. split; [exact Hr2|].
    by destruct (Hcyc cyclic_graph_cyclic) as [-> _].
Defined.

Lemma no_edges_targets g : Forall (fun pr => pr.2 = []) g → targets g = [].
Proof.
  unfold targets. induction 1 as [|[p ds] g Hp Hg IH]; [done|].
  simpl in Hp. subst ds. by rewrite bind_cons, IH.
Qed.

Lemma no_edges_edge_list g :
  Forall (fun pr => pr.2 = []) g → edge_list g = [].
Proof.
  unfold edge_list. induction 1 as [|[p ds] g Hp Hg IH]; [done|].
  simpl in Hp. subst ds. by rewrite bind_cons, IH.
Qed.

(** X9. On a graph without edges (every dependency set empty, which
    includes the empty graph) whose keys all have counter 0, [detectCycle]
    returns false, [topologicalSort] outputs every package in the
    iteration order of the adjacency map, [detectConflict] returns false
    and prints nothing, [visualize] prints the header and the footer only,
    and [analyzeImpact] prints its header only. *)
Theorem no_edges_analyses st :
  NoDup (keys (graph st)) →
  Forall (fun pr => pr.2 = []) (graph st) →
  (∀ p, p ∈ keys (graph st) → inDegree st !! p = Some 0) →
  detectCycle st = Done false
  ∧ (∃ r, topologicalSort st = Done r
          ∧ sortedPackages r = keys (graph st)
          ∧ sort_printed r
            = "Topological Order (Build Order):"%string
              :: map package_line (keys (graph st)))
  ∧ detectConflict st = (false, [])
  ∧ visualize st = ["digraph dependencies {"; "}"]%string
  ∧ ∀ t, analyzeImpact st t
         = [("Impact analysis for package: " +:+ name t)%string].
Proof.
  intros Hnd Hempty Hzero.
  pose proof (no_edges_targets _ Hempty) as Ht.
  pose proof (no_edges_edge_list _ Hempty) as He.
  assert (closed (graph st)) as Hcl by (unfold closed; by rewrite Ht).
  assert (∀ p d, ¬ edge (graph st) p d) as Hno.
  { intros p d Hed%edge_target. rewrite Ht in Hed. inversion Hed. }
  split_and!.
  - pose proof (detectCycle_outcome st) as Hout.
    destruct (detectCycle st) as [[]| |]; [|done..].
    destruct Hout as [p Hp]. inversion Hp as [? ? Hed|? ? ? Hed _]; subst;
      by destruct (Hno _ _ Hed).
  - destruct (sort_loop_nonpos (keys (graph st)) (length (graph st)) st [])
      as (st' & Hrun & Hg); [done| |done| |].
    { intros x Hx. exists 0. split; [by apply Hzero | done]. }
    { unfold keys. by rewrite length_fmap. }
    eexists. unfold topologicalSort.
    rewrite seed_Done by (intros p Hp; rewrite (Hzero p Hp); eauto).
    rewrite outcome_bind_Done. simpl.
    rewrite (filter_ext_elem _ (fun _ => True) (graph st).*1)
      by (intros x Hx; split; [done | intros _; by apply Hzero]).
    assert (∀ l : list Package, filter (fun _ => True) l = l) as ->.
    { induction l as [|a l IH]; [done|]. by rewrite filter_cons_True, IH. }
    unfold keys in Hrun. rewrite Hrun, outcome_bind_Done. simpl.
    split; [reflexivity|]. split; [done|].
    rewrite Hg, length_fmap. by rewrite decide_False by (intros H; by destruct H).
  - unfold detectConflict. pose proof (conflict_pairs_spec (graph st)) as Hspec.
    destruct (conflict_pairs (graph st)) as [[] out].
    + destruct Hspec as (l1 & p & d & l2 & Hl & _). rewrite He in Hl.
      by destruct l1.
    + by destruct Hspec as [-> _].
  - unfold visualize. f_equal.
    assert ((graph st ≫= fun pr => edge_line pr.1 <$> pr.2) = []) as ->; [|done].
    clear -Hempty. induction Hempty as [|[p ds] g Hp Hg IH]; [done|].
    simpl in Hp. subst ds. by rewrite bind_cons, IH.
  - intros t. unfold analyzeImpact, impactDependents. f_equal.
    assert (filter (fun pr : Package * list Package => t ∈ pr.2) (graph st)
            = []) as ->; [|done].
    clear -Hempty. induction Hempty as [|[p ds] g Hp Hg IH]; [done|].
    simpl in Hp. subst ds. rewrite filter_cons.
    by rewrite decide_False by (simpl; apply not_elem_of_nil).
Qed.

Lemma no_edges_analyses_witness :
  detectCycle emptyGraph = Done false
  ∧ (∃ r, topologicalSort (addPackage (addPackage emptyGraph pkgA) pkgB)
          = Done r
          ∧ sortedPackages r = [pkgA; pkgB]).
Proof.
  split.
  - apply (no_edges_analyses emptyGraph); [compute_done..|].
    intros p Hp. inversion Hp.
  - set (st := addPackage (addPackage emptyGraph pkgA) pkgB).
    destruct (no_edges_analyses st) as (_ & (r & Hr & Hs & _) & _);
      [compute_done | compute_done | |].
    + apply Forall_forall. compute_done.
    + exists r. split; [exact Hr | exact Hs].
Defined.

(** ** Independence of the iteration order *)

Lemma tc_impl {A} (R R' : relation A) :
  (∀ a b, R a b → R' a b) → ∀ a b, tc R a b → tc R' a b.
Proof.
  intros Himpl a b. induction 1 as [a b H|a b c H _ IH].
  - by apply tc_once, Himpl.
  - eapply tc_l; [by apply Himpl | done].
Qed.

Lemma same_graph_edge g g' :
  NoDup (keys g) → NoDup (keys g') → same_graph g g' →
  ∀ p d, edge g p d ↔ edge g' p d.
Proof.
  intros Hnd Hnd' (_ & _ & Hsub & Hsub') p d.
  rewrite !edge_entry by done. rewrite <- !elem_of_edge_list.
  split; [apply Hsub | apply Hsub'].
Qed.

Lemma same_graph_closed g g' :
  NoDup (keys g) → NoDup (keys g') → same_graph g g' →
  closed g → closed g'.
Proof.
  intros Hnd Hnd' Hsame Hcl. pose proof Hsame as (Hk & _ & _ & _).
  unfold closed. apply Forall_forall. intros d Hd.
  destruct (target_edge _ _ Hnd' Hd) as [p He].
  apply (same_graph_edge g g' Hnd Hnd' Hsame) in He.
  apply graph_find_is_Some, Hk, graph_find_is_Some.
  by apply (closed_edge _ p).
Qed.

(** X10. The boolean results do not depend on the iteration order of the
    hash containers: for two adjacency maps with unique keys that hold the
    same keys and the same edges, in whatever orders, and registered
    targets, [detectCycle] returns the same value, [detectConflict]
    returns the same boolean and [analyzeImpact] reports the same packages
    up to order: it prints the same header followed by the same lines in
    a possibly different order. *)
Theorem verdicts_order_independent g g' deg deg' :
  NoDup (keys g) → NoDup (keys g') → same_graph g g' → closed g →
  detectCycle (mkGraph g deg) = detectCycle (mkGraph g' deg')
  ∧ (detectConflict (mkGraph g deg)).1 = (detectConflict (mkGraph g' deg')).1
  ∧ (∀ t, impactDependents (mkGraph g deg) t
          ≡ₚ impactDependents (mkGraph g' deg') t)
  ∧ ∀ t, ∃ lines lines',
      analyzeImpact (mkGraph g deg) t
      = ("Impact analysis for package: " +:+ name t)%string :: lines
      ∧ analyzeImpact (mkGraph g' deg') t
        = ("Impact analysis for package: " +:+ name t)%string :: lines'
      ∧ lines ≡ₚ lines'
      ∧ ∀ l, l ∈ lines ↔
             ∃ p, edge g p t
                  ∧ l = ("Package " +:+ name p +:+ " depends on "
                         +:+ name t)%string.
Proof.
  intros Hnd Hnd' Hsame Hcl.
  pose proof (same_graph_edge g g' Hnd Hnd' Hsame) as Hedge.
  pose proof (same_graph_closed g g' Hnd Hnd' Hsame Hcl) as Hcl'.
  assert (∀ t, impactDependents (mkGraph g deg) t
               ≡ₚ impactDependents (mkGraph g' deg') t) as Himpact.
  { intros t. apply NoDup_Permutation.
    - unfold impactDependents. eapply sublist_NoDup; [exact Hnd|].
      apply fmap_sublist, sublist_filter.
    - unfold impactDependents. eapply sublist_NoDup; [exact Hnd'|].
      apply fmap_sublist, sublist_filter.
    - intros p. rewrite !elem_of_impactDependents. simpl.
      rewrite <- !edge_entry by done. apply Hedge. }
  split_and!.
  - pose proof (detectCycle_spec (mkGraph g deg) Hnd) as H1.
    pose proof (detectCycle_spec (mkGraph g' deg') Hnd') as H2.
    simpl in *.
    assert (∀ p, tc (edge g) p p ↔ tc (edge g') p p) as Htc.
    { intros p. split; apply tc_impl; intros a b; apply Hedge. }
    destruct (detectCycle (mkGraph g deg)) as [[]| |],
      (detectCycle (mkGraph g' deg')) as [[]| |]; try done.
    + destruct H1 as [p Hp], H2 as [_ Hac]. destruct (Hac p). by apply Htc.
    + destruct H2 as [p Hp], H1 as [_ Hac]. destruct (Hac p). by apply Htc.
  - pose proof (detectConflict_true_iff (mkGraph g deg)) as H1.
    pose proof (detectConflict_true_iff (mkGraph g' deg')) as H2.
    simpl in *.
    assert ((∃ p ds d, (p, ds) ∈ g ∧ d ∈ ds ∧ version p ≠ version d)
            ↔ ∃ p ds d, (p, ds) ∈ g' ∧ d ∈ ds ∧ version p ≠ version d) as Hex.
    { split; intros (p & ds & d & Hin & Hd & Hv).
      - destruct (proj1 (edge_entry g' p d Hnd'))
          as (ds' & ? & ?); [|by eauto 6].
        apply Hedge, edge_entry; eauto.
      - destruct (proj1 (edge_entry g p d Hnd))
          as (ds' & ? & ?); [|by eauto 6].
        apply Hedge, edge_entry; eauto. }
    destruct (detectConflict (mkGraph g deg)).1,
      (detectConflict (mkGraph g' deg')).1; try done.
    + symmetry. apply H2, Hex, H1. done.
    + apply H1, Hex, H2. done.
  - exact (Himpact).
  - intros t. eexists _, _. split; [reflexivity|]. split; [reflexivity|].
    split; [by apply fmap_Permutation|].
    intros l. rewrite list_elem_of_fmap. split.
    + intros (p & -> & Hp). exists p. split; [|done].
      apply elem_of_impactDependents in Hp. simpl in Hp.
      by apply edge_entry.
    + intros (p & Hp & ->). exists p. split; [done|].
      apply elem_of_impactDependents. simpl. by apply edge_entry.
Qed.

Lemma verdicts_order_independent_witness :
  NoDup (keys (graph main_graph))
  ∧ NoDup (keys (reverse (graph main_graph)))
  ∧ same_graph (graph main_graph) (reverse (graph main_graph))
  ∧ closed (graph main_graph)
  ∧ detectCycle (mkGraph (reverse (graph main_graph)) ∅)
    = detectCycle main_graph
  ∧ analyzeImpact (mkGraph (reverse (graph main_graph)) ∅) pkgB
    ≡ₚ analyzeImpact main_graph pkgB.
Proof.
  assert (NoDup (keys (graph main_graph))) as H1 by compute_done.
  assert (NoDup (keys (reverse (graph main_graph)))) as H2 by compute_done.
  assert (same_graph (graph main_graph) (reverse (graph main_graph))) as H3
    by compute_done.
  assert (closed (graph main_graph)) as H4 by compute_done.
  destruct (verdicts_order_independent (graph main_graph)
              (reverse (graph main_graph)) (inDegree main_graph) ∅
              H1 H2 H3 H4) as (Hc & _ & _ & Hlines).
  split; [exact H1|]. split; [exact H2|]. split; [exact H3|].
  split; [exact H4|]. split; [symmetry; exact Hc|].
  destruct (Hlines pkgB) as (lines & lines' & Ha & Hb & Hperm & _).
  rewrite Hb.
  assert (analyzeImpact main_graph pkgB
          = ("Impact analysis for package: " +:+ name pkgB)%string :: lines)
    as -> by exact Ha.
  by constructor.
Defined.

(** ** Package::Hash *)

(** X11. [Package::Hash] combines the two string hashes with xor, so it
    gives the same value to a package and to the package with name and
    version exchanged, and the value 0 to every package whose name and
    version are the same string, whatever the string hash is; equal
    packages hash equally. *)
Theorem Package_hash_collisions (std_hash : string → Z) :
  (∀ n v, Package_hash std_hash (mkPackage n v)
          = Package_hash std_hash (mkPackage v n))
  ∧ (∀ n, Package_hash std_hash (mkPackage n n) = 0)
  ∧ (∀ p q, p = q → Package_hash std_hash p = Package_hash std_hash q).
Proof.
  unfold Package_hash. split_and!; simpl.
  - intros n v. apply Z.lxor_comm.
  - intros n. apply Z.lxor_nilpotent.
  - by intros p q ->.
Qed.

(** ** Visualizer *)

Lemma visualize_edge_list g :
  (g ≫= fun pr => edge_line pr.1 <$> pr.2)
  = (fun e => edge_line e.1 e.2) <$> edge_list g.
Proof.
  unfold edge_list. induction g as [|[p ds] g IH]; [done|].
  rewrite !bind_cons, fmap_app, IH. f_equal. simpl.
  rewrite <- list_fmap_compose. done.
Qed.

Lemma NoDup_edge_list g : wf_graph g → NoDup (edge_list g).
Proof.
  intros [Hnd Hsets]. unfold edge_list, keys in *.
  induction g as [|[p ds] g IH]; [constructor|].
  rewrite bind_cons. simpl in *.
  apply NoDup_cons in Hnd as [Hp Hnd].
  apply Forall_cons in Hsets as [Hds Hsets]. simpl in Hds.
  apply NoDup_app. split_and!.
  - apply NoDup_fmap_2; [|done]. by intros x y [=].
  - intros [q d] (x & [= -> ->] & Hx)%list_elem_of_fmap Hin.
    apply elem_of_edge_list in Hin as (ds' & Hin & _).
    apply Hp. by apply (list_elem_of_fmap_2 fst _ (p, ds')).
  - by apply IH.
Qed.

(** X12. [visualize] prints the header, then one line for each edge of
    the graph in the order the nested loops meet them, then the footer.
    On a graph with unique keys and duplicate-free dependency sets every
    edge is met exactly once, so the output has two lines more than the
    graph has edges. *)
Theorem visualize_lines st :
  wf_graph (graph st) →
  visualize st
  = "digraph dependencies {"%string
    :: ((fun e => edge_line e.1 e.2) <$> edge_list (graph st))
    ++ ["}"%string]
  ∧ NoDup (edge_list (graph st))
  ∧ (∀ p d, (p, d) ∈ edge_list (graph st) ↔ edge (graph st) p d)
  ∧ length (visualize st) = (2 + length (edge_list (graph st)))%nat.
Proof.
  intros Hwf. unfold visualize. rewrite visualize_edge_list.
  split_and!.
  - done.
  - by apply NoDup_edge_list.
  - intros p d. destruct Hwf as [Hnd _].
    by rewrite elem_of_edge_list, edge_entry.
  - simpl. rewrite length_app, length_fmap. simpl. lia.
Qed.

Lemma visualize_lines_witness :
  wf_graph (graph main_graph)
  ∧ edge_list (graph main_graph)
    = [(pkgA, pkgB); (pkgA, pkgD); (pkgB, pkgC)]
  ∧ length (visualize main_graph) = 5%nat.
Proof.
  assert (wf_graph (graph main_graph)) as Hwf by compute_done.
  destruct (visualize_lines main_graph Hwf) as (_ & _ & _ & Hlen).
  split; [exact Hwf|]. split; [reflexivity|]. exact Hlen.
Defined.

(** ** main *)

(** X13. The sequence of analyses run by [main], on any graph with unique
    keys, duplicate-free sets, registered targets and freshly computed
    in-degrees: on a cyclic graph it prints the one line reporting the
    cycle and exits with code 1 before the sorter or any later analysis
    runs; on an acyclic graph it exits with code 0 after printing the
    build order, the conflict report, the graph description and the impact
    report, the last three being those of the graph as it was before the
    sort. *)
Theorem main_pipeline_outcome st pkg :
  wf_graph (graph st) → fresh st → closed (graph st) →
  (cyclic (graph st) →
   main_pipeline st pkg
   = Done (1, ["Cycle detected! Resolving is not possible."%string]))
  ∧ (acyclic (graph st) →
     ∃ r, topologicalSort st = Done r
          ∧ length (sortedPackages r) = length (graph st)
          ∧ main_pipeline st pkg
            = Done (0, ("Topological Order (Build Order):"%string
                        :: map package_line (sortedPackages r))
                       ++ (detectConflict st).2
                       ++ (if (detectConflict st).1
                           then ["Conflict detected!"%string] else [])
                       ++ visualize st
                       ++ analyzeImpact st pkg)).
Proof.
  intros Hwf Hfresh Hcl. pose proof (detectCycle_outcome st) as Hdfs.
  unfold main_pipeline. split.
  - intros [p Hp]. destruct (detectCycle st) as [[]| |]; [done| |done..].
    destruct Hdfs as [Hac _]. by destruct (Hac p).
  - intros Hac. destruct (detectCycle st) as [[]| |]; [|clear Hdfs|done..].
    { destruct Hdfs as [p Hp]. by destruct (Hac p). }
    pose proof (topologicalSort_spec st Hwf Hfresh) as Hspec.
    destruct (topologicalSort st) as [r| |] eqn:Hrun; [|done..].
    destruct Hspec as [Hg Hinv]. destruct Hwf as [Hnd _].
    pose proof (kahn_acyclic_length _ _ _ Hnd Hinv Hac) as Hlen.
    apply topologicalSort_Done in Hrun as (_ & _ & _ & Hprint).
    rewrite Hg, decide_False in Hprint by (intros Hne; by destruct Hne).
    exists r. split; [done|]. split; [done|].
    rewrite !outcome_bind_Done.
    unfold detectConflict, visualize, analyzeImpact, impactDependents.
    by rewrite Hg, Hprint.
Qed.

Lemma main_pipeline_outcome_witness :
  (wf_graph (graph main_graph) ∧ fresh main_graph ∧ closed (graph main_graph)
   ∧ ∃ out, main = Done (0, out) ∧ length out = 14%nat)
  ∧ (wf_graph (graph cyclic_graph) ∧ fresh cyclic_graph
     ∧ closed (graph cyclic_graph)
     ∧ main_pipeline cyclic_graph pkgB
       = Done (1, ["Cycle detected! Resolving is not possible."%string])).
Proof.
  assert (wf_graph (graph main_graph)) as Hwf1 by compute_done.
  assert (fresh main_graph) as Hf1 by compute_done.
  assert (closed (graph main_graph)) as Hc1 by compute_done.
  assert (wf_graph (graph cyclic_graph)) as Hwf2 by compute_done.
  assert (fresh cyclic_graph) as Hf2 by compute_done.
  assert (closed (graph cyclic_graph)) as Hc2 by compute_done.
  destruct (main_pipeline_outcome main_graph pkgB Hwf1 Hf1 Hc1) as [_ Hacyc].
  destruct (main_pipeline_outcome cyclic_graph pkgB Hwf2 Hf2 Hc2)
    as [Hcyc _].
  split.
  - split; [exact Hwf1|]. split; [exact Hf1|]. split; [exact Hc1|].
    destruct (Hacyc main_graph_acyclic) as (r & Hr & Hlen & Hmain).
    eexists. split; [exact Hmain|].
    rewrite !length_app. simpl. rewrite length_map, Hlen. reflexivity.
  - split; [exact Hwf2|]. split; [exact Hf2|]. split; [exact Hc2|].
    exact (Hcyc cyclic_graph_cyclic).
Defined.

Example main_output :
  main
  = Done (0, ["Topological Order (Build Order):"; "pkgA 1.0.1"; "pkgB 2.3.0";
              "pkgD 1.5.0"; "pkgC 3.1.2";
              "Conflict detected: pkgA and pkgB have incompatible versions.";
              "Conflict detected!";
              "digraph dependencies {"; edge_line pkgA pkgB;
              edge_line pkgA pkgD; edge_line pkgB pkgC; "}";
              "Impact analysis for package: pkgB";
              "Package pkgA depends on pkgB"]%string).
Proof. vm_compute. reflexivity. Qed.

(** ** The recursion stack of the depth-first search *)

Lemma for_each_pkg_stack
    (visit : Package → DfsState → outcome (bool * DfsState)) :
  (∀ p s (b : bool) s', visit p s = Done (b, s') →
     visited s ⊆ visited s'
     ∧ if b then recStack s ⊆ recStack s' ∧ p ∈ recStack s'
       else recStack s' = recStack s ∧ p ∈ visited s') →
  ∀ pkgs s (b : bool) s', for_each_pkg visit pkgs s = Done (b, s') →
     visited s ⊆ visited s'
     ∧ if b then recStack s ⊆ recStack s'
       else recStack s' = recStack s ∧ ∀ p, p ∈ pkgs → p ∈ visited s'.
Proof.
  intros Hvisit. induction pkgs as [|a pkgs IH]; intros s b s'; simpl.
  - intros [= <- <-]. split; [done|]. split; [done|].
    intros p Hp. inversion Hp.
  - destruct (visit a s) as [[[] s1]| |] eqn:Ha; [| |done..].
    + intros [= <- <-]. destruct (Hvisit _ _ _ _ Ha) as (? & ? & ?). done.
    + destruct (Hvisit _ _ _ _ Ha) as (Hv1 & Hr1 & Ha1).
      intros Hrest. destruct (IH _ _ _ Hrest) as [Hv2 Hb]. split; [set_solver|].
      destruct b.
      * by rewrite <- Hr1.
      * destruct Hb as [Hr2 Hall]. split; [congruence|].
        intros p [->|Hp]%elem_of_cons; [set_solver | by apply Hall].
Qed.

(** X14. What [detectCycleUtil] does to the two sets, from any state: it
    never removes a package from [visited]; when it returns false the
    recursion stack is exactly what it was at the call and the package is
    visited and off the stack; when it returns true the stack has only
    grown and still holds the package, since the code returns without
    unwinding it. *)
Theorem detectCycleUtil_stack fuel st :
  ∀ pkg s (b : bool) s',
    detectCycleUtil fuel st pkg s = Done (b, s') →
    visited s ⊆ visited s'
    ∧ if b then recStack s ⊆ recStack s' ∧ pkg ∈ recStack s'
      else recStack s' = recStack s ∧ pkg ∈ visited s' ∧ pkg ∉ recStack s'.
Proof.
  induction fuel as [|fuel IH]; intros pkg s b s';
    rewrite detectCycleUtil_unfold.
  all: destruct (decide (pkg ∈ recStack s)) as [Hrec|Hrec];
    [by intros [= <- <-]|].
  all: destruct (decide (pkg ∈ visited s)) as [Hvis|Hvis];
    [by intros [= <- <-]|].
  all: unfold getDependencies;
    destruct (graph_find (graph st) pkg) as [ds|]; [|done];
    rewrite outcome_bind_Done; try done.
  assert (∀ p s (b : bool) s', detectCycleUtil fuel st p s = Done (b, s') →
            visited s ⊆ visited s'
            ∧ if b then recStack s ⊆ recStack s' ∧ p ∈ recStack s'
              else recStack s' = recStack s ∧ p ∈ visited s') as Hweak.
  { intros p s0 b0 s0' H0. destruct (IH _ _ _ _ H0) as [Hv Hb].
    split; [done|]. destruct b0; [done|]. by destruct Hb as (? & ? & _). }
  pose proof (for_each_pkg_stack _ Hweak ds
                {| visited := {[pkg]} ∪ visited s;
                   recStack := {[pkg]} ∪ recStack s |}) as Hloop.
  destruct (for_each_pkg _ ds _) as [[[] s2]| |]; [| |done..].
  - intros [= <- <-]. destruct (Hloop _ _ eq_refl) as [Hv Hr]. simpl in *.
    split; [set_solver|]. split; set_solver.
  - intros [= <- <-]. destruct (Hloop _ _ eq_refl) as (Hv & Hr & _).
    simpl in *. split; [set_solver|]. rewrite Hr. split; set_solver.
Qed.

Lemma detectCycleUtil_stack_witness :
  ∃ s', detectCycleUtil 4 main_graph pkgA (mkDfs ∅ ∅) = Done (false, s')
        ∧ recStack s' = ∅ ∧ pkgA ∈ visited s'.
Proof.
  assert (∃ s', detectCycleUtil 4 main_graph pkgA (mkDfs ∅ ∅)
                = Done (false, s')) as [s' Hs]
    by (eexists; vm_compute; reflexivity).
  exists s'.
  destruct (detectCycleUtil_stack 4 main_graph pkgA _ false s' Hs)
    as (_ & Hr & Hv & _).
  split; [exact Hs|]. split; [exact Hr | exact Hv].
Defined.

(** ** Cycles and further calls *)

Lemma edge_apply_call st c p d :
  edge (graph st) p d → edge (graph (apply_call st c)) p d.
Proof.
  intros (ds & Hf & Hd). destruct c as [pkg|pkg dependency]; simpl.
  - exists ds. split; [|done].
    destruct (graph_find (graph st) pkg); [done|].
    by rewrite graph_find_snoc, Hf.
  - destruct (decide (p = pkg)) as [->|Hne].
    + eexists. rewrite adj_insert_find_eq. split; [done|].
      apply elem_of_set_insert. right. by rewrite Hf.
    + exists ds. by rewrite adj_insert_find_ne.
Qed.

Lemma cyclic_apply_calls cs :
  ∀ st, cyclic (graph st) → cyclic (graph (apply_calls st cs)).
Proof.
  unfold apply_calls. induction cs as [|c cs IH]; intros st Hc; [done|].
  simpl. apply IH. destruct Hc as [p Hp]. exists p.
  eapply tc_impl; [|exact Hp]. intros a b. apply edge_apply_call.
Qed.

(** X15. The mutators only add edges, so a cycle never goes away: once
    [detectCycle] has returned true, it returns true again after any
    further [addPackage] and [addDependency] calls that leave every target
    registered. *)
Theorem cycle_persists st cs :
  detectCycle st = Done true →
  closed (graph (apply_calls st cs)) →
  detectCycle (apply_calls st cs) = Done true.
Proof.
  intros Htrue Hcl.
  pose proof (detectCycle_outcome st) as Hout. rewrite Htrue in Hout.
  apply (cyclic_apply_calls cs) in Hout as [p Hp].
  pose proof (detectCycle_outcome (apply_calls st cs)) as Hout'.
  destruct (detectCycle (apply_calls st cs)) as [[]| |]; [done| |done..].
  destruct Hout' as [Hac _]. by destruct (Hac p).
Qed.

Lemma cycle_persists_witness :
  detectCycle cyclic_graph = Done true
  ∧ closed (graph (apply_calls cyclic_graph
                     [AddPackage pkgX; AddDependency pkgX pkgA]))
  ∧ detectCycle (apply_calls cyclic_graph
                   [AddPackage pkgX; AddDependency pkgX pkgA]) = Done true.
Proof.
  assert (detectCycle cyclic_graph = Done true) as H1 by compute_done.
  assert (closed (graph (apply_calls cyclic_graph
                           [AddPackage pkgX; AddDependency pkgX pkgA])))
    as H2 by compute_done.
  split; [exact H1|]. split; [exact H2|].
  exact (cycle_persists cyclic_graph _ H1 H2).
Defined.

(** X16. A package made to depend on itself is a cycle: after
    [addDependency(p, p)], whatever the graph was, [detectCycle] does not
    return false, and it returns true when every target is registered. *)
Theorem self_dependency_is_cycle st p :
  detectCycle (addDependency st p p) ≠ Done false
  ∧ (closed (graph (addDependency st p p)) →
     detectCycle (addDependency st p p) = Done true).
Proof.
  assert (tc (edge (graph (addDependency st p p))) p p) as Hloop.
  { apply tc_once. simpl. eexists. rewrite adj_insert_find_eq.
    split; [done|]. apply elem_of_set_insert. by left. }
  pose proof (detectCycle_outcome (addDependency st p p)) as Hout.
  destruct (detectCycle (addDependency st p p)) as [[]| |]; try done.
  destruct Hout as [Hac _]. by destruct (Hac p).
Qed.

Lemma self_dependency_is_cycle_witness :
  closed (graph (addDependency main_graph pkgC pkgC))
  ∧ detectCycle (addDependency main_graph pkgC pkgC) = Done true.
Proof.
  assert (closed (graph (addDependency main_graph pkgC pkgC))) as Hcl
    by compute_done.
  split; [exact Hcl|].
  exact (proj2 (self_dependency_is_cycle main_graph pkgC) Hcl).
Defined.
